(** * Flow control of the light client subprotocol

    A shallow embedding of [les/flowcontrol] (the client side tracker
    [ClientNode] and the server side estimator [ServerNode]) and of
    [peer.GetRequestCost] from package [les], followed by the properties
    the specification states about them. After these come the handshake's
    key/value list and the peer set of package [les], the cache of past
    tries of package [state] and the capabilities of package [p2p], with
    properties read off their code.

    Go's [uint64] and [int64] are integers of [Z] with the wrap-around
    written out; a method with a pointer receiver is a function from the
    receiver's state to its new state (and the returned values);
    [mclock.Now()] is an argument of the operation that reads the clock; a
    run time panic is [None]. *)

From Stdlib Require Import ZArith Lia Bool List.
From Stdlib Require Import Floats.SpecFloat.
From Stdlib Require Import Ascii.
From stdpp Require Import gmap strings pretty.
Import ListNotations.
Local Open Scope Z_scope.

(** ** Machine integers *)

(** Go's [uint64]: arithmetic modulo [2^64]. *)
Module U64.

Definition modulus : Z := 2 ^ 64.

Definition in_range (x : Z) : Prop := 0 <= x < modulus.

Definition wrap (x : Z) : Z := x mod modulus.

Definition add (a b : Z) : Z := wrap (a + b).

Definition sub (a b : Z) : Z := wrap (a - b).

Definition mul (a b : Z) : Z := wrap (a * b).

(** Integer division panics on a zero divisor. *)
Definition div (a b : Z) : option Z :=
  if b =? 0 then None else Some (a / b).

End U64.

(** Go's [int64] ([mclock.AbsTime] and [time.Duration] are [int64]
    nanoseconds), with the conversions from and to [uint64]. *)
Module I64.

Definition in_range (x : Z) : Prop := - 2 ^ 63 <= x < 2 ^ 63.

Definition wrap (x : Z) : Z := (x + 2 ^ 63) mod 2 ^ 64 - 2 ^ 63.

Definition sub (a b : Z) : Z := wrap (a - b).

(** [uint64(x)] for a signed [x]. *)
Definition to_u64 (x : Z) : Z := x mod 2 ^ 64.

(** [time.Duration(x)] for an unsigned [x]. *)
Definition of_u64 (x : Z) : Z := wrap x.

End I64.

(** Go's [float64], as IEEE 754 binary64 of [SpecFloat]. *)
Module Float64.

Definition prec : Z := 53.
Definition emax : Z := 1024.

(** [float64(x)] for an unsigned [x]: rounded to the nearest, ties to even. *)
Definition of_u64 (x : Z) : spec_float := binary_normalize prec emax x 0 false.

Definition div (x y : spec_float) : spec_float := SFdiv prec emax x y.

Definition zero : spec_float := S754_zero false.

End Float64.

(** ** Package flowcontrol *)

Module flowcontrol.

(** [time.Millisecond], in nanoseconds. *)
Definition Millisecond : Z := 1000000.

Definition fcTimeConst : Z := Millisecond.

(** safetyMargin is added to the flow control waiting time when estimated
    buffer value is low. *)
Definition safetyMargin : Z := Millisecond.

Record ServerParams : Type := {
  BufLimit : Z;
  MinRecharge : Z
}.

(** Modelled from the spec: the [ClientManager] (section 6.2; its source,
    the manager of package flowcontrol, is not part of the sources at
    hand). For one tracker's node handle the manager is its two hooks:
    [accept(node, time)], the admission decision, and
    [processed(node, time)], which returns [(rc_value, real_cost)]. The
    manager is stateful, so every call may be given another value of this
    record. *)
Record ClientManager : Type := {
  accept : Z -> bool;
  processed : Z -> Z * Z
}.

Module ClientNode.

Record t : Type := {
  params : ServerParams;
  bufValue : Z;
  lastTime : Z
}.

Definition recalcBV (time : Z) (peer : t) : t :=
  let dt := I64.to_u64 (I64.sub time (lastTime peer)) in
  let dt := if time <? lastTime peer then 0 else dt in
  let bv := U64.add (bufValue peer)
              (U64.mul (MinRecharge (params peer)) dt / I64.to_u64 fcTimeConst) in
  let bv := if bv >? BufLimit (params peer) then BufLimit (params peer) else bv in
  {| params := params peer; bufValue := bv; lastTime := time |}.

Definition AcceptRequest (cm : ClientManager) (now : Z) (peer : t) : t * (Z * bool) :=
  let time := now in
  let peer := recalcBV time peer in
  (peer, (bufValue peer, accept cm time)).

Definition RequestProcessed (cm : ClientManager) (now : Z) (cost : Z) (peer : t)
  : t * (Z * Z) :=
  let time := now in
  let peer := recalcBV time peer in
  let peer := {| params := params peer;
                 bufValue := U64.sub (bufValue peer) cost;
                 lastTime := lastTime peer |} in
  let peer := recalcBV time peer in
  let '(rcValue, rcost) := processed cm time in
  let peer :=
    if rcValue <? BufLimit (params peer) then
      let bv := U64.sub (BufLimit (params peer)) rcValue in
      if bv >? bufValue peer then
        {| params := params peer; bufValue := bv; lastTime := lastTime peer |}
      else peer
    else peer in
  (peer, (bufValue peer, rcost)).

End ClientNode.

Definition NewClientNode (params : ServerParams) (now : Z) : ClientNode.t :=
  {| ClientNode.params := params;
     ClientNode.bufValue := BufLimit params;
     ClientNode.lastTime := now |}.

Module ServerNode.

Record t : Type := {
  bufEstimate : Z;
  lastTime : Z;
  params : ServerParams;
  sumCost : Z;
  pending : gmap Z Z
}.

Definition recalcBLE (time : Z) (peer : t) : t :=
  let dt := I64.to_u64 (I64.sub time (lastTime peer)) in
  let dt := if time <? lastTime peer then 0 else dt in
  let be := U64.add (bufEstimate peer)
              (U64.mul (MinRecharge (params peer)) dt / I64.to_u64 fcTimeConst) in
  let be := if be >? BufLimit (params peer) then BufLimit (params peer) else be in
  {| bufEstimate := be; lastTime := time; params := params peer;
     sumCost := sumCost peer; pending := pending peer |}.

(** The receiver is recharged also when the division panics. *)
Definition canSend (now : Z) (maxCost : Z) (peer : t) : t * option (Z * spec_float) :=
  let peer := recalcBLE now peer in
  let maxCost := U64.add maxCost
                   (U64.mul (I64.to_u64 safetyMargin) (MinRecharge (params peer))
                    / I64.to_u64 fcTimeConst) in
  let maxCost := if maxCost >? BufLimit (params peer) then BufLimit (params peer)
                 else maxCost in
  if bufEstimate peer >=? maxCost then
    (peer, Some (0, Float64.div (Float64.of_u64 (U64.sub (bufEstimate peer) maxCost))
                                (Float64.of_u64 (BufLimit (params peer)))))
  else
    (peer,
     match U64.div (U64.mul (U64.sub maxCost (bufEstimate peer)) (I64.to_u64 fcTimeConst))
                   (MinRecharge (params peer)) with
     | Some q => Some (I64.of_u64 q, Float64.zero)
     | None => None
     end).

Definition CanSend (now : Z) (maxCost : Z) (peer : t) : t * option (Z * spec_float) :=
  canSend now maxCost peer.

Definition QueueRequest (reqID maxCost : Z) (peer : t) : t :=
  let be := U64.sub (bufEstimate peer) maxCost in
  let sc := U64.add (sumCost peer) maxCost in
  {| bufEstimate := be; lastTime := lastTime peer; params := params peer;
     sumCost := sc; pending := <[reqID := sc]> (pending peer) |}.

Definition GotReply (now : Z) (reqID bv : Z) (peer : t) : t :=
  let bv := if bv >? BufLimit (params peer) then BufLimit (params peer) else bv in
  match pending peer !! reqID with
  | None => peer
  | Some sc =>
      let cc := U64.sub (sumCost peer) sc in
      let be := if bv >? cc then U64.sub bv cc else 0 in
      {| bufEstimate := be; lastTime := now; params := params peer;
         sumCost := sumCost peer; pending := delete reqID (pending peer) |}
  end.

End ServerNode.

Definition NewServerNode (params : ServerParams) (now : Z) : ServerNode.t :=
  {| ServerNode.bufEstimate := BufLimit params;
     ServerNode.lastTime := now;
     ServerNode.params := params;
     ServerNode.sumCost := 0;
     ServerNode.pending := ∅ |}.

End flowcontrol.

(** ** Package les: the cost of a request *)

Module les.

Import flowcontrol.

(** Modelled from the spec: the request cost table (section 6.1 and the
    glossary: a mapping from message code to the base and per item cost
    coefficients; the declaration of [requestCostTable] is not part of the
    sources at hand). *)
Record requestCosts : Type := {
  baseCost : Z;
  reqCost : Z
}.

(** The fields of [peer] that [GetRequestCost] reads. [fcServerParams] is a
    pointer that the handshake sets only when the remote peer is a server. *)
Record peer : Type := {
  fcServerParams : option ServerParams;
  fcCosts : gmap Z requestCosts
}.

(** [amount] is a Go [int]. [None] stands for a message code without an
    entry in the table and for a nil [fcServerParams]. *)
Definition GetRequestCost (msgcode : Z) (amount : Z) (p : peer) : option Z :=
  match fcCosts p !! msgcode, fcServerParams p with
  | Some c, Some params =>
      let cost := U64.add (baseCost c) (U64.mul (reqCost c) (I64.to_u64 amount)) in
      Some (if cost >? BufLimit params then BufLimit params else cost)
  | _, _ => None
  end.

End les.

(** ** Sequences of operations on one tracker *)

Module Trace.

Import flowcontrol.

Inductive client_op : Type :=
  | OpAcceptRequest (cm : ClientManager) (now : Z)
  | OpRequestProcessed (cm : ClientManager) (now : Z) (cost : Z).

Definition client_step (peer : ClientNode.t) (op : client_op) : ClientNode.t :=
  match op with
  | OpAcceptRequest cm now => fst (ClientNode.AcceptRequest cm now peer)
  | OpRequestProcessed cm now cost => fst (ClientNode.RequestProcessed cm now cost peer)
  end.

Definition client_run (ops : list client_op) (peer : ClientNode.t) : ClientNode.t :=
  fold_left client_step ops peer.

(** The arguments and the values of the hooks are of their Go types. *)
Definition client_op_wf (op : client_op) : Prop :=
  match op with
  | OpAcceptRequest cm now => I64.in_range now
  | OpRequestProcessed cm now cost =>
      I64.in_range now /\ U64.in_range cost /\
      U64.in_range (fst (processed cm now)) /\ U64.in_range (snd (processed cm now))
  end.

Inductive server_op : Type :=
  | OpCanSend (now : Z) (maxCost : Z)
  | OpQueueRequest (reqID maxCost : Z)
  | OpGotReply (now : Z) (reqID bv : Z).

Definition server_step (peer : ServerNode.t) (op : server_op) : ServerNode.t :=
  match op with
  | OpCanSend now maxCost => fst (ServerNode.CanSend now maxCost peer)
  | OpQueueRequest reqID maxCost => ServerNode.QueueRequest reqID maxCost peer
  | OpGotReply now reqID bv => ServerNode.GotReply now reqID bv peer
  end.

Definition server_run (ops : list server_op) (peer : ServerNode.t) : ServerNode.t :=
  fold_left server_step ops peer.

Definition server_op_wf (op : server_op) : Prop :=
  match op with
  | OpCanSend now maxCost => I64.in_range now /\ U64.in_range maxCost
  | OpQueueRequest reqID maxCost => U64.in_range reqID /\ U64.in_range maxCost
  | OpGotReply now reqID bv => I64.in_range now /\ U64.in_range reqID /\ U64.in_range bv
  end.

(** Every [QueueRequest] of the sequence asks for no more than the estimate
    holds when it is called. *)
Fixpoint queue_within_estimate (ops : list server_op) (peer : ServerNode.t) : bool :=
  match ops with
  | [] => true
  | op :: ops' =>
      match op with
      | OpQueueRequest _ maxCost => maxCost <=? ServerNode.bufEstimate peer
      | _ => true
      end && queue_within_estimate ops' (server_step peer op)
  end.

(** What every operation keeps on the client side: the parameters, and the
    buffer value under the ceiling ... *)
Definition client_inv (p : ServerParams) (peer : ClientNode.t) : Prop :=
  ClientNode.params peer = p /\ 0 <= ClientNode.bufValue peer <= BufLimit p.

(** ... and on the server side, as long as no request exceeds the estimate. *)
Definition server_inv (p : ServerParams) (peer : ServerNode.t) : Prop :=
  ServerNode.params peer = p /\ 0 <= ServerNode.bufEstimate peer <= BufLimit p.

End Trace.

(** ** The specification's wording *)

Module Spec.

Import flowcontrol.

(** Section 4.1: the recharge law, on a buffer field [B] with its
    [last_time]; the result is the new buffer field and the new
    [last_time]. *)
Definition recharge (params : ServerParams) (B last_time t : Z) : Z * Z :=
  let dt := Z.max 0 (t - last_time) in
  (Z.min (BufLimit params) (U64.add B (U64.mul (MinRecharge params) dt / Millisecond)), t).

(** Section 4.3, [can_send]: the cost with the safety margin, clamped. *)
Definition effective_cost (params : ServerParams) (max_cost : Z) : Z :=
  Z.min (BufLimit params)
    (U64.add max_cost (U64.mul Millisecond (MinRecharge params) / Millisecond)).

(** Section 6.1: the cost of a message. *)
Definition request_cost (buf_limit base_cost req_cost amount : Z) : Z :=
  Z.min buf_limit (U64.add base_cost (U64.mul req_cost amount)).

End Spec.

(** ** The scenarios of the specification (section 8) *)

Module Scenario.

Import flowcontrol Trace.

(** [buf_limit = 1000] and [min_recharge = 100] per millisecond. *)
Definition params : ServerParams := {| BufLimit := 1000; MinRecharge := 100 |}.

(** A time of the scenarios, given in milliseconds. *)
Definition ms (n : Z) : Z := n * Millisecond.

(** The manager of scenario A: it admits, with [rc_value = 1000] and
    [real_cost = 300]. *)
Definition manager : ClientManager :=
  {| accept := fun _ => true; processed := fun _ => (1000, 300) |}.

(** Scenario A after its [request_processed(300)]. *)
Definition client_A : ClientNode.t :=
  client_run [OpAcceptRequest manager (ms 0); OpRequestProcessed manager (ms 0) 300]
    (NewClientNode params (ms 0)).

(** Scenario C before its reply: requests 1 and 2 are pending. *)
Definition ops_C : list server_op := [OpQueueRequest 1 400; OpQueueRequest 2 200].

Definition server_C : ServerNode.t := server_run ops_C (NewServerNode params (ms 0)).

(** Scenario B: a request of cost 1200 is queued on a fresh tracker. *)
Definition ops_B : list server_op := [OpQueueRequest 1 1200].

(** Scenario F: the estimate is down to 100. *)
Definition server_F : ServerNode.t :=
  server_run [OpQueueRequest 1 900] (NewServerNode params (ms 0)).

(** A server that does not recharge, and a tracker of it with a request of
    cost 900 pending. *)
Definition params_no_recharge : ServerParams := {| BufLimit := 1000; MinRecharge := 0 |}.

Definition server_no_recharge : ServerNode.t :=
  server_run [OpQueueRequest 1 900] (NewServerNode params_no_recharge (ms 0)).

(** A peer whose table knows message code 3. *)
Definition peer_3 : les.peer :=
  {| les.fcServerParams := Some params;
     les.fcCosts := {[ 3 := {| les.baseCost := 10; les.reqCost := 7 |} ]} |}.

End Scenario.

(** Closed goals on the scenarios are settled by evaluation. *)
Ltac by_evaluation :=
  vm_compute; repeat split; first [ reflexivity | discriminate | intro; discriminate ].

(** ** Requests queued behind a request *)

Module Queue.

Import flowcontrol Trace.

(** The total of the costs that a sequence of operations queues. *)
Fixpoint queued_cost (ops : list server_op) : Z :=
  match ops with
  | [] => 0
  | OpQueueRequest _ maxCost :: ops' => maxCost + queued_cost ops'
  | _ :: ops' => queued_cost ops'
  end.

(** The operation neither queues a request under [id] nor answers it. *)
Definition leaves_request (id : Z) (op : server_op) : bool :=
  match op with
  | OpCanSend _ _ => true
  | OpQueueRequest reqID _ => negb (reqID =? id)
  | OpGotReply _ reqID _ => negb (reqID =? id)
  end.

End Queue.

(** ** Package les: the key/value list of the handshake *)

(** [rlp.RawValue]: the encoding of a value, a byte slice. *)
Definition RawValue : Type := list Byte.byte.

Module keyValueList.

Record keyValueEntry : Type := {
  Key : string;
  Value : RawValue
}.

Section Encode.

(** The values ([interface{}]) that the handshake sends, with [uint64(0)]
    among them, and [rlp.EncodeToBytes] on them ([None] is its error); the
    encoder is not part of the sources at hand. *)
Context {V : Type}.
Variable uint64_0 : V.
Variable EncodeToBytes : V -> option RawValue.

(** [val] is [None] for a nil interface value. An entry whose value cannot
    be encoded keeps the zero [Value]. *)
Definition add (l : list keyValueEntry) (key : string) (val : option V)
  : list keyValueEntry :=
  let val := match val with None => uint64_0 | Some v => v end in
  let value := match EncodeToBytes val with Some enc => enc | None => [] end in
  l ++ [{| Key := key; Value := value |}].

End Encode.

Definition decode (l : list keyValueEntry) : gmap string RawValue :=
  fold_left (fun m entry => <[Key entry := Value entry]> m) l ∅.

End keyValueList.

Module keyValueMap.

Section Decode.

(** [rlp.DecodeBytes(enc, val)] for a destination [val]: its outcome (an
    error, or the value stored in the destination) is left abstract. *)
Context {Target Outcome : Type}.
Variable DecodeBytes : RawValue -> Target -> Outcome.

Inductive result : Type :=
  | MissingKey (key : string)   (* errResp(ErrMissingKey, "%s", key) *)
  | Present                     (* nil, for a nil destination *)
  | Decoded (o : Outcome).

(** [val] is [None] for a nil destination. *)
Definition get (m : gmap string RawValue) (key : string) (val : option Target) : result :=
  match m !! key with
  | None => MissingKey key
  | Some enc =>
      match val with
      | None => Present
      | Some dst => Decoded (DecodeBytes enc dst)
      end
  end.

End Decode.

End keyValueMap.

(** ** Package les: the set of peers *)

Module peerSet.

Inductive error : Type := errClosed | errAlreadyRegistered | errNotRegistered.

Inductive DiscReason : Type := DiscUselessPeer | DiscQuitting.

Section PeerSet.

(** [P] stands for the pointers to peers, [id] for the field [p.id]; [N]
    for the values of the interface [peerSetNotify]. *)
Context {P N : Type}.
Variable id : P -> string.

(** What an operation does to its collaborators, in the order of the calls. *)
Inductive event : Type :=
  | registerPeer (n : N) (p : P)
  | unregisterPeer (n : N) (p : P)
  | newExecQueue (p : P)
  | sendQueue_quit (p : P)
  | Disconnect (p : P) (reason : DiscReason).

Record t : Type := {
  peers : gmap string P;
  notifyList : list N;
  closed : bool
}.

Definition newPeerSet : t := {| peers := ∅; notifyList := []; closed := false |}.

(** A [range] over the map visits its entries in an order that Go does not
    fix: [visit] is that order, an enumeration of the map. *)
Definition enumerates (visit : list (string * P)) (ps : t) : Prop :=
  visit ≡ₚ map_to_list (peers ps).

Definition notify (visit : list (string * P)) (n : N) (ps : t) : t * list event :=
  ({| peers := peers ps; notifyList := notifyList ps ++ [n]; closed := closed ps |},
   (fun kp => registerPeer n (snd kp)) <$> visit).

Definition Register (p : P) (ps : t) : t * option error * list event :=
  if closed ps then (ps, Some errClosed, [])
  else
    match peers ps !! id p with
    | Some _ => (ps, Some errAlreadyRegistered, [])
    | None =>
        ({| peers := <[id p := p]> (peers ps); notifyList := notifyList ps;
            closed := closed ps |},
         None,
         newExecQueue p :: ((fun n => registerPeer n p) <$> notifyList ps))
    end.

Definition Unregister (key : string) (ps : t) : t * option error * list event :=
  match peers ps !! key with
  | None => (ps, Some errNotRegistered, [])
  | Some p =>
      ({| peers := delete key (peers ps); notifyList := notifyList ps;
          closed := closed ps |},
       None,
       ((fun n => unregisterPeer n p) <$> notifyList ps)
       ++ [sendQueue_quit p; Disconnect p DiscUselessPeer])
  end.

Definition AllPeerIDs (visit : list (string * P)) (ps : t) : list string :=
  fst <$> visit.

(** [None] is the nil pointer. *)
Definition Peer (key : string) (ps : t) : option P := peers ps !! key.

Definition Len (ps : t) : Z := Z.of_nat (size (peers ps)).

Definition AllPeers (visit : list (string * P)) (ps : t) : list P :=
  snd <$> visit.

Definition Close (visit : list (string * P)) (ps : t) : t * list event :=
  ({| peers := peers ps; notifyList := notifyList ps; closed := true |},
   (fun kp => Disconnect (snd kp) DiscQuitting) <$> visit).

(** [Td p] is what [p.Td()] returns during the call, a [big.Int]. *)
Variable Td : P -> Z.

Definition BestPeer_step (best : option (P * Z)) (kp : string * P) : option (P * Z) :=
  let td := Td (snd kp) in
  match best with
  | None => Some (snd kp, td)
  | Some (_, bestTd) => if td >? bestTd then Some (snd kp, td) else best
  end.

Definition BestPeer (visit : list (string * P)) (ps : t) : option P :=
  fst <$> fold_left BestPeer_step visit None.

End PeerSet.

End peerSet.

(** Sequences of operations on a peer set. *)
Module peerSetRun.

Import peerSet.

Section Run.

Context {P N : Type}.
Variable id : P -> string.

Inductive op : Type :=
  | OpNotify (visit : list (string * P)) (n : N)
  | OpRegister (p : P)
  | OpUnregister (key : string)
  | OpClose (visit : list (string * P)).

Definition step (ps : @peerSet.t P N) (o : op) : @peerSet.t P N :=
  match o with
  | OpNotify visit n => fst (notify visit n ps)
  | OpRegister p => fst (fst (Register id p ps))
  | OpUnregister key => fst (fst (Unregister key ps))
  | OpClose visit => fst (Close visit ps)
  end.

Definition run (ops : list op) (ps : @peerSet.t P N) : @peerSet.t P N := fold_left step ops ps.

(** Every peer of the set is stored under its own id. *)
Definition well_keyed (ps : @peerSet.t P N) : Prop :=
  forall (key : string) (p : P), peers ps !! key = Some p -> id p = key.

End Run.

End peerSetRun.

(** ** Package state: the cache of past tries *)

Module cachingDB.

(** Number of past tries to keep. *)
Definition maxPastTries : nat := 12.

(** Go's [copy(dst, src)], which copies as many elements as the shorter of
    the two slices has. *)
Definition copy {A : Type} (dst src : list A) : list A :=
  take (length dst) src ++ drop (length src) dst.

Section Tries.

(** [T] stands for the pointers to secure tries and [H] for [common.Hash];
    the trie's [Hash], [Copy] and [Commit] and [trie.NewSecure] are not part
    of the sources at hand ([inl] is an error). *)
Context {T H Err : Type} `{EqDecision H}.
Variable Hash : T -> H.
Variable Copy : T -> T.
Variable NewSecure : H -> Err + T.
Variable Commit : T -> Err + H.

(** The field [pastTries] is all of the database that these functions read
    and write. *)
Definition pushTrie (t : T) (pastTries : list T) : list T :=
  if (maxPastTries <=? length pastTries)%nat then
    <[(length pastTries - 1)%nat := t]> (copy pastTries (drop 1 pastTries))
  else pastTries ++ [t].

(** The loop of [OpenTrie], at index [i - 1] and below. *)
Fixpoint search (pastTries : list T) (root : H) (i : nat) : option T :=
  match i with
  | O => None
  | S i' =>
      match pastTries !! i' with
      | Some t => if decide (Hash t = root) then Some t else search pastTries root i'
      | None => None
      end
  end.

(** The result is the trie of the [cachedTrie] returned. *)
Definition OpenTrie (root : H) (pastTries : list T) : Err + T :=
  match search pastTries root (length pastTries) with
  | Some t => inr (Copy t)
  | None => NewSecure root
  end.

(** One [pushTrie] after the other. *)
Definition pushes (ts : list T) (pastTries : list T) : list T :=
  fold_left (fun l t => pushTrie t l) ts pastTries.

(** [cachedTrie.Commit]: the trie is pushed when its commit succeeds. *)
Definition cachedTrie_Commit (m : T) (pastTries : list T) : list T * (Err + H) :=
  match Commit m with
  | inr root => (pushTrie m pastTries, inr root)
  | inl err => (pastTries, inl err)
  end.

End Tries.

End cachingDB.

(** ** Package p2p: capabilities *)

Module p2p.

Record Cap : Type := {
  Name : string;
  Version : Z
}.

(** An index expression: out of range, it panics. *)
Definition index (cs : list Cap) (i : Z) : option Cap :=
  if i <? 0 then None else cs !! Z.to_nat i.

(** [fmt.Sprintf("%s/%d", cap.Name, cap.Version)]; [Version] is a [uint]. *)
Definition Cap_String (cap : Cap) : string :=
  Name cap +:+ "/" +:+ pretty (Z.to_N (Version cap)).

(** The string has no ["/"]. *)
Fixpoint slash_free (s : string) : Prop :=
  match s with
  | EmptyString => True
  | String c s' => c <> "/"%char /\ slash_free s'
  end.

Module capsByNameAndVersion.

Definition Len (cs : list Cap) : Z := Z.of_nat (length cs).

Definition Swap (cs : list Cap) (i j : Z) : option (list Cap) :=
  match index cs j, index cs i with
  | Some cj, Some ci => Some (<[Z.to_nat j := ci]> (<[Z.to_nat i := cj]> cs))
  | _, _ => None
  end.

Definition Less (cs : list Cap) (i j : Z) : option bool :=
  match index cs i, index cs j with
  | Some ci, Some cj =>
      Some (String.ltb (Name ci) (Name cj)
            || (String.eqb (Name ci) (Name cj) && (Version ci <? Version cj)))
  | _, _ => None
  end.

End capsByNameAndVersion.

(** The comparison that [Less] makes, on two capabilities. *)
Definition less (a b : Cap) : bool :=
  String.ltb (Name a) (Name b)
  || (String.eqb (Name a) (Name b) && (Version a <? Version b)).

End p2p.

(** ** Sample peers and tries *)

Module Samples.

Import peerSet peerSetRun.

(** Peers that are their own id, with the length of the id as total
    difficulty; subscribers are numbers. *)
Definition id (p : string) : string := p.

Definition Td (p : string) : Z := Z.of_nat (String.length p).

Definition no_peers : @peerSet.t string nat := newPeerSet.

Definition two_peers : @peerSet.t string nat :=
  run id [OpNotify [] 7%nat; OpRegister "aa"; OpRegister "b"] no_peers.

Definition visit_two : list (string * string) := map_to_list (peers two_peers).

(** Tries that are numbers, with the hundreds as their root hash; a miss
    of the cache is an error. *)
Definition Hash (t : nat) : nat := (t / 100)%nat.

Definition Copy (t : nat) : nat := t.

Definition NewSecure (root : nat) : unit + nat := inl tt.

End Samples.

(** * Properties *)

Import flowcontrol Trace.

(** ** Machine arithmetic *)

Section MachineArithmetic.

Lemma u64_wrap_range (x : Z) : U64.in_range (U64.wrap x).
Proof. unfold U64.in_range, U64.wrap, U64.modulus. apply Z.mod_pos_bound. lia. Qed.

Lemma u64_wrap_small (x : Z) : U64.in_range x -> U64.wrap x = x.
Proof. unfold U64.in_range, U64.wrap. intros H. apply Z.mod_small. exact H. Qed.

Lemma u64_sub_exact (a b : Z) : U64.in_range a -> 0 <= b <= a -> U64.sub a b = a - b.
Proof.
  intros Ha Hb. unfold U64.sub. apply u64_wrap_small.
  unfold U64.in_range in *. lia.
Qed.

Lemma u64_sub_diag (a : Z) : U64.sub a a = 0.
Proof. unfold U64.sub, U64.wrap. rewrite Z.sub_diag. reflexivity. Qed.

Lemma u64_div_nonzero (a b : Z) : b <> 0 -> U64.div a b = Some (a / b).
Proof.
  intros Hb. unfold U64.div. destruct (Z.eqb_spec b 0) as [E | _]; [contradiction | reflexivity].
Qed.

Lemma u64_div_zero (a : Z) : U64.div a 0 = None.
Proof. reflexivity. Qed.

Lemma i64_wrap_small (x : Z) : I64.in_range x -> I64.wrap x = x.
Proof.
  unfold I64.in_range, I64.wrap. intros H.
  rewrite Z.mod_small; lia.
Qed.

Lemma fcTimeConst_u64 : I64.to_u64 fcTimeConst = Millisecond.
Proof. reflexivity. Qed.

Lemma safetyMargin_u64 : I64.to_u64 safetyMargin = Millisecond.
Proof. reflexivity. Qed.

(** The elapsed time that both recharge functions compute: the signed
    difference, converted, and replaced by zero when the clock went back. *)
Lemma elapsed_time (t last : Z) :
  I64.in_range t -> I64.in_range last ->
  (if t <? last then 0 else I64.to_u64 (I64.sub t last)) = Z.max 0 (t - last).
Proof.
  unfold I64.in_range. intros Ht Hl.
  destruct (Z.ltb_spec t last) as [Hlt | Hge]; [lia |].
  unfold I64.to_u64, I64.sub, I64.wrap.
  rewrite Zminus_mod_idemp_l.
  replace (t - last + 2 ^ 63 - 2 ^ 63) with (t - last) by lia.
  rewrite Z.mod_small; lia.
Qed.

Lemma clamp_min (x limit : Z) : (if x >? limit then limit else x) = Z.min limit x.
Proof. destruct (Z.gtb_spec x limit); lia. Qed.

End MachineArithmetic.

(** ** The recharge law (section 4.1) *)

Section Recharge.

Variable t : Z.
Hypothesis t_i64 : I64.in_range t.

Lemma recalcBV_recharge (peer : ClientNode.t) :
  I64.in_range (ClientNode.lastTime peer) ->
  let peer' := ClientNode.recalcBV t peer in
  (ClientNode.bufValue peer', ClientNode.lastTime peer')
  = Spec.recharge (ClientNode.params peer) (ClientNode.bufValue peer)
      (ClientNode.lastTime peer) t.
Proof.
  intros Hl. cbn. unfold Spec.recharge.
  rewrite (elapsed_time t _ t_i64 Hl), clamp_min, fcTimeConst_u64. reflexivity.
Qed.

Lemma recalcBLE_recharge (peer : ServerNode.t) :
  I64.in_range (ServerNode.lastTime peer) ->
  let peer' := ServerNode.recalcBLE t peer in
  (ServerNode.bufEstimate peer', ServerNode.lastTime peer')
  = Spec.recharge (ServerNode.params peer) (ServerNode.bufEstimate peer)
      (ServerNode.lastTime peer) t.
Proof.
  intros Hl. cbn. unfold Spec.recharge.
  rewrite (elapsed_time t _ t_i64 Hl), clamp_min, fcTimeConst_u64. reflexivity.
Qed.

End Recharge.

(** When the clock went back the law adds nothing. *)
Lemma recharge_backwards (params : ServerParams) (B last t : Z) :
  U64.in_range B -> t < last ->
  Spec.recharge params B last t = (Z.min (BufLimit params) B, t).
Proof.
  intros HB Hlt. unfold Spec.recharge.
  replace (Z.max 0 (t - last)) with 0 by lia.
  unfold U64.mul. rewrite Z.mul_0_r. cbn [U64.wrap].
  replace (U64.wrap 0 / Millisecond) with 0 by reflexivity.
  unfold U64.add. rewrite Z.add_0_r, (u64_wrap_small B HB). reflexivity.
Qed.

(** Without overflow the law is the one of the integers. *)
Lemma recharge_exact (params : ServerParams) (B last t : Z) :
  0 <= B -> 0 <= MinRecharge params ->
  let dt := Z.max 0 (t - last) in
  MinRecharge params * dt < U64.modulus ->
  B + MinRecharge params * dt / Millisecond < U64.modulus ->
  Spec.recharge params B last t
  = (Z.min (BufLimit params) (B + MinRecharge params * dt / Millisecond), t).
Proof.
  intros HB HR dt Hmul Hadd. unfold Spec.recharge. fold dt.
  assert (Hdt : 0 <= dt) by (unfold dt; lia).
  unfold U64.mul. rewrite (u64_wrap_small (MinRecharge params * dt)).
  2:{ unfold U64.in_range. split; [apply Z.mul_nonneg_nonneg; assumption | assumption]. }
  unfold U64.add. rewrite u64_wrap_small; [reflexivity |].
  unfold U64.in_range. split; [| assumption].
  assert (0 <= MinRecharge params * dt / Millisecond).
  { apply Z.div_pos; [apply Z.mul_nonneg_nonneg; assumption | reflexivity]. }
  lia.
Qed.

(** C2: for both trackers, recharge at time [t] turns the buffer field [B]
    into [min(buf_limit, B + min_recharge * max(0, t - last_time) /
    time_constant)], in 64-bit unsigned arithmetic with integer division
    and a time constant of one millisecond, and sets [last_time] to [t]
    whatever [t] is: when [t < last_time] nothing is added to the buffer
    and [last_time] still moves back to [t]. *)
Theorem recharge_law (c : ClientNode.t) (s : ServerNode.t) (t : Z) :
  I64.in_range t ->
  I64.in_range (ClientNode.lastTime c) ->
  I64.in_range (ServerNode.lastTime s) ->
  U64.in_range (ClientNode.bufValue c) ->
  U64.in_range (ServerNode.bufEstimate s) ->
  let c' := ClientNode.recalcBV t c in
  let s' := ServerNode.recalcBLE t s in
  (ClientNode.bufValue c', ClientNode.lastTime c')
  = Spec.recharge (ClientNode.params c) (ClientNode.bufValue c) (ClientNode.lastTime c) t
  /\ (ServerNode.bufEstimate s', ServerNode.lastTime s')
     = Spec.recharge (ServerNode.params s) (ServerNode.bufEstimate s) (ServerNode.lastTime s) t
  /\ ClientNode.lastTime c' = t
  /\ ServerNode.lastTime s' = t
  /\ (t < ClientNode.lastTime c ->
      ClientNode.bufValue c' = Z.min (BufLimit (ClientNode.params c)) (ClientNode.bufValue c))
  /\ (t < ServerNode.lastTime s ->
      ServerNode.bufEstimate s' = Z.min (BufLimit (ServerNode.params s)) (ServerNode.bufEstimate s)).
Proof.
  intros Ht Hc Hs HBc HBs c' s'.
  pose proof (recalcBV_recharge t Ht c Hc) as Ec.
  pose proof (recalcBLE_recharge t Ht s Hs) as Es.
  cbv zeta in Ec, Es. fold c' in Ec. fold s' in Es.
  repeat split; try assumption; try reflexivity.
  - intros Hlt. rewrite (recharge_backwards _ _ _ _ HBc Hlt) in Ec. congruence.
  - intros Hlt. rewrite (recharge_backwards _ _ _ _ HBs Hlt) in Es. congruence.
Qed.

Lemma recharge_law_witness :
  let c' := ClientNode.recalcBV (Scenario.ms 2) Scenario.client_A in
  let s' := ServerNode.recalcBLE (Scenario.ms 2) Scenario.server_C in
  (ClientNode.bufValue c', ClientNode.lastTime c') = (900, Scenario.ms 2)
  /\ (ServerNode.bufEstimate s', ServerNode.lastTime s') = (600, Scenario.ms 2).
Proof.
  destruct (recharge_law Scenario.client_A Scenario.server_C (Scenario.ms 2))
    as (Ec & Es & _); [by_evaluation .. |].
  split; [rewrite Ec | rewrite Es]; reflexivity.
Defined.

(** ** The buffer ceiling (section 8, invariant 1) *)

Section Ceiling.

Variable p : ServerParams.
Hypothesis limit_u64 : U64.in_range (BufLimit p).

Lemma clamp_bounds (x : Z) :
  0 <= (if U64.wrap x >? BufLimit p then BufLimit p else U64.wrap x) <= BufLimit p.
Proof.
  pose proof (u64_wrap_range x) as Hx. unfold U64.in_range in *.
  destruct (Z.gtb_spec (U64.wrap x) (BufLimit p)); lia.
Qed.

(** Recharge restores the ceiling from any state. *)
Lemma recalcBV_inv (t : Z) (peer : ClientNode.t) :
  ClientNode.params peer = p -> client_inv p (ClientNode.recalcBV t peer).
Proof.
  intros Hp. unfold client_inv, ClientNode.recalcBV. cbn. rewrite Hp.
  split; [reflexivity | apply clamp_bounds].
Qed.

Lemma recalcBLE_inv (t : Z) (peer : ServerNode.t) :
  ServerNode.params peer = p -> server_inv p (ServerNode.recalcBLE t peer).
Proof.
  intros Hp. unfold server_inv, ServerNode.recalcBLE. cbn. rewrite Hp.
  split; [reflexivity | apply clamp_bounds].
Qed.

Lemma AcceptRequest_inv cm now (peer : ClientNode.t) :
  client_inv p peer -> client_inv p (fst (ClientNode.AcceptRequest cm now peer)).
Proof. intros [Hp _]. cbn. apply recalcBV_inv. exact Hp. Qed.

Lemma RequestProcessed_inv cm now cost (peer : ClientNode.t) :
  U64.in_range (fst (processed cm now)) ->
  client_inv p peer -> client_inv p (fst (ClientNode.RequestProcessed cm now cost peer)).
Proof.
  intros Hrc [Hp _]. unfold ClientNode.RequestProcessed.
  set (peer1 := ClientNode.recalcBV now peer).
  set (peer2 := {| ClientNode.params := ClientNode.params peer1;
                   ClientNode.bufValue := U64.sub (ClientNode.bufValue peer1) cost;
                   ClientNode.lastTime := ClientNode.lastTime peer1 |}).
  assert (H3 : client_inv p (ClientNode.recalcBV now peer2)).
  { apply recalcBV_inv. cbn. exact Hp. }
  set (peer3 := ClientNode.recalcBV now peer2) in *.
  cbv zeta. destruct (processed cm now) as [rcValue rcost]. cbn [fst] in *.
  destruct H3 as [Hp3 Hb3]. rewrite Hp3.
  destruct (Z.ltb_spec rcValue (BufLimit p)) as [Hlt | Hge]; cbn [fst].
  - rewrite (u64_sub_exact _ _ limit_u64) by (unfold U64.in_range in Hrc; lia).
    destruct (Z.gtb_spec (BufLimit p - rcValue) (ClientNode.bufValue peer3)).
    + split; cbn; [reflexivity | unfold U64.in_range in Hrc; lia].
    + split; assumption.
  - split; assumption.
Qed.

Lemma client_step_inv (peer : ClientNode.t) (op : client_op) :
  client_op_wf op -> client_inv p peer -> client_inv p (client_step peer op).
Proof.
  destruct op as [cm now | cm now cost]; cbn [client_step client_op_wf].
  - intros _. apply AcceptRequest_inv.
  - intros (_ & _ & Hrc & _). apply RequestProcessed_inv. exact Hrc.
Qed.

Lemma client_run_inv (ops : list client_op) :
  forall peer, Forall client_op_wf ops -> client_inv p peer -> client_inv p (client_run ops peer).
Proof.
  induction ops as [| op ops IH]; intros peer Hwf Hinv; [exact Hinv |].
  inversion Hwf as [| ? ? Hop Hops]; subst.
  cbn. apply IH; [exact Hops |]. apply client_step_inv; assumption.
Qed.

Lemma CanSend_inv now maxCost (peer : ServerNode.t) :
  server_inv p peer -> server_inv p (fst (ServerNode.CanSend now maxCost peer)).
Proof.
  intros [Hp _]. unfold ServerNode.CanSend, ServerNode.canSend. cbv zeta.
  match goal with |- context [if ?b then _ else _] => destruct b end;
    cbn [fst]; apply recalcBLE_inv; exact Hp.
Qed.

(** A request within the estimate leaves the estimate under the ceiling. *)
Lemma QueueRequest_inv reqID maxCost (peer : ServerNode.t) :
  0 <= maxCost <= ServerNode.bufEstimate peer ->
  server_inv p peer -> server_inv p (ServerNode.QueueRequest reqID maxCost peer).
Proof.
  intros Hc [Hp Hb]. unfold server_inv, ServerNode.QueueRequest. cbn.
  split; [exact Hp |].
  rewrite u64_sub_exact; unfold U64.in_range in *; lia.
Qed.

Lemma GotReply_inv now reqID bv (peer : ServerNode.t) :
  server_inv p peer -> server_inv p (ServerNode.GotReply now reqID bv peer).
Proof.
  intros [Hp Hb]. unfold ServerNode.GotReply. cbv zeta.
  destruct (ServerNode.pending peer !! reqID) as [sc |]; [| split; assumption].
  unfold server_inv. cbn. split; [exact Hp |]. rewrite Hp, clamp_min.
  set (cc := U64.sub (ServerNode.sumCost peer) sc).
  assert (Hcc : U64.in_range cc) by apply u64_wrap_range.
  unfold U64.in_range in *.
  destruct (Z.gtb_spec (Z.min (BufLimit p) bv) cc) as [Hgt | Hle]; [| lia].
  rewrite u64_sub_exact; unfold U64.in_range; lia.
Qed.

Lemma server_run_inv (ops : list server_op) :
  forall peer,
    Forall server_op_wf ops -> queue_within_estimate ops peer = true ->
    server_inv p peer -> server_inv p (server_run ops peer).
Proof.
  induction ops as [| op ops IH]; intros peer Hwf Hq Hinv; [exact Hinv |].
  inversion Hwf as [| ? ? Hop Hops]; subst.
  cbn [queue_within_estimate] in Hq. apply andb_prop in Hq as [Hq1 Hq2].
  cbn. apply IH; [exact Hops | exact Hq2 |].
  destruct op as [now maxCost | reqID maxCost | now reqID bv]; cbn [server_step].
  - apply CanSend_inv, Hinv.
  - apply QueueRequest_inv; [| exact Hinv].
    destruct Hop as [_ Hc]. unfold U64.in_range in Hc. lia.
  - apply GotReply_inv, Hinv.
Qed.

End Ceiling.

(** C1, as stated, fails: on a fresh tracker with [buf_limit = 1000],
    [QueueRequest(1, 1200)] (scenario B) subtracts modulo [2^64] and leaves
    [buf_estimate = 2^64 - 200], above the limit. *)
Lemma buffer_ceiling_counterexample :
  U64.in_range (BufLimit Scenario.params)
  /\ Forall server_op_wf Scenario.ops_B
  /\ ServerNode.bufEstimate
       (server_run Scenario.ops_B (NewServerNode Scenario.params (Scenario.ms 0)))
     = 2 ^ 64 - 200
  /\ BufLimit Scenario.params
     < ServerNode.bufEstimate
         (server_run Scenario.ops_B (NewServerNode Scenario.params (Scenario.ms 0))).
Proof.
  split; [by_evaluation |]. split; [| by_evaluation].
  repeat constructor; by_evaluation.
Qed.

(** C1, amended: in every state that a sequence of the core operations
    reaches from the initial state, the ClientNode's [buf_value] is at most
    [BufLimit]; the ServerNode's [buf_estimate] is at most [BufLimit] in
    every state reached by a sequence in which each [QueueRequest] asks for
    no more than the estimate holds when it is called. *)
Theorem buffer_ceiling (p : ServerParams) (now : Z) :
  U64.in_range (BufLimit p) ->
  (forall ops : list client_op,
      Forall client_op_wf ops ->
      ClientNode.bufValue (client_run ops (NewClientNode p now)) <= BufLimit p)
  /\ (forall ops : list server_op,
         Forall server_op_wf ops ->
         queue_within_estimate ops (NewServerNode p now) = true ->
         ServerNode.bufEstimate (server_run ops (NewServerNode p now)) <= BufLimit p).
Proof.
  intros HL. assert (H0 : 0 <= BufLimit p <= BufLimit p) by (unfold U64.in_range in HL; lia).
  split.
  - intros ops Hwf.
    apply (client_run_inv p HL ops (NewClientNode p now) Hwf).
    split; [reflexivity | exact H0].
  - intros ops Hwf Hq.
    apply (server_run_inv p HL ops (NewServerNode p now) Hwf Hq).
    split; [reflexivity | exact H0].
Qed.

Lemma buffer_ceiling_witness :
  ClientNode.bufValue Scenario.client_A <= 1000
  /\ ServerNode.bufEstimate Scenario.server_C <= 1000.
Proof.
  destruct (buffer_ceiling Scenario.params (Scenario.ms 0)) as [Hc Hs]; [by_evaluation |].
  split.
  - apply Hc. repeat constructor; by_evaluation.
  - apply Hs; [repeat constructor; by_evaluation | reflexivity].
Defined.

(** The ceiling is lost only until the next recharge: [CanSend] restores it
    from any state. *)
Lemma CanSend_restores_ceiling (now maxCost : Z) (peer : ServerNode.t) :
  U64.in_range (BufLimit (ServerNode.params peer)) ->
  ServerNode.bufEstimate (fst (ServerNode.CanSend now maxCost peer))
  <= BufLimit (ServerNode.params peer).
Proof.
  intros HL. unfold ServerNode.CanSend, ServerNode.canSend. cbv zeta.
  match goal with |- context [if ?b then _ else _] => destruct b end; cbn [fst];
    apply (recalcBLE_inv _ HL now peer eq_refl).
Qed.

(** ** The server side estimator (section 4.3) *)

(** C3: when [reqID] is pending with snapshot [s], [GotReply(reqID, bv)]
    clamps [bv] to [buf_limit], removes the pending entry, computes
    [cc = sum_cost - s] (unsigned subtraction), sets [buf_estimate] to the
    clamped [bv] minus [cc] if the clamped [bv] is greater than [cc] and to
    0 otherwise, and sets [last_time] to the current time; so the new
    [buf_estimate] is at most [bv]. *)
Theorem GotReply_pending (peer : ServerNode.t) (now reqID bv s : Z) :
  U64.in_range (BufLimit (ServerNode.params peer)) ->
  U64.in_range bv ->
  ServerNode.pending peer !! reqID = Some s ->
  let clamped := Z.min bv (BufLimit (ServerNode.params peer)) in
  let cc := U64.sub (ServerNode.sumCost peer) s in
  let peer' := ServerNode.GotReply now reqID bv peer in
  ServerNode.pending peer' = delete reqID (ServerNode.pending peer)
  /\ ServerNode.bufEstimate peer' = (if clamped >? cc then clamped - cc else 0)
  /\ ServerNode.lastTime peer' = now
  /\ ServerNode.sumCost peer' = ServerNode.sumCost peer
  /\ ServerNode.params peer' = ServerNode.params peer
  /\ ServerNode.bufEstimate peer' <= bv.
Proof.
  intros HL Hbv Hs clamped cc peer'.
  assert (Hcc : U64.in_range cc) by apply u64_wrap_range.
  assert (E : peer' = {| ServerNode.bufEstimate := if clamped >? cc then clamped - cc else 0;
                         ServerNode.lastTime := now;
                         ServerNode.params := ServerNode.params peer;
                         ServerNode.sumCost := ServerNode.sumCost peer;
                         ServerNode.pending := delete reqID (ServerNode.pending peer) |}).
  { unfold peer', ServerNode.GotReply. cbv zeta. rewrite Hs, clamp_min, Z.min_comm.
    fold clamped. fold cc. f_equal.
    destruct (Z.gtb_spec clamped cc) as [Hgt | Hle]; [| reflexivity].
    apply u64_sub_exact; unfold U64.in_range in *; lia. }
  rewrite E. cbn. repeat split; try reflexivity.
  unfold U64.in_range in *.
  destruct (Z.gtb_spec clamped cc); lia.
Qed.

Lemma GotReply_pending_witness :
  let peer' := ServerNode.GotReply (Scenario.ms 5) 1 700 Scenario.server_C in
  ServerNode.pending Scenario.server_C !! 1 = Some 400
  /\ ServerNode.bufEstimate peer' = 500
  /\ ServerNode.pending peer' = {[ 2 := 600 ]}
  /\ ServerNode.lastTime peer' = Scenario.ms 5.
Proof.
  destruct (GotReply_pending Scenario.server_C (Scenario.ms 5) 1 700 400)
    as (Hp & He & Ht & _); [by_evaluation .. |].
  split; [reflexivity |]. split; [rewrite He; reflexivity |].
  split; [rewrite Hp; by_evaluation | exact Ht].
Defined.

(** C4: [canSend(max_cost)] first recharges at the current time, then adds
    [safety_margin * min_recharge / time_constant] to [max_cost] and clamps
    the sum to [buf_limit]. If [buf_estimate] is at least this effective
    cost, it returns delay 0 and the headroom
    [(buf_estimate - effective_cost) / buf_limit] (a [float64] quotient);
    otherwise it returns the delay
    [(effective_cost - buf_estimate) * time_constant / min_recharge]
    (unsigned, integer division, read as a duration) and headroom 0. When
    [buf_limit] milliseconds fit a duration the delay is the quotient of
    the integers. *)
Theorem canSend_result (peer : ServerNode.t) (now maxCost : Z) :
  U64.in_range (BufLimit (ServerNode.params peer)) ->
  let limit := BufLimit (ServerNode.params peer) in
  let rate := MinRecharge (ServerNode.params peer) in
  let peer1 := ServerNode.recalcBLE now peer in
  let est := ServerNode.bufEstimate peer1 in
  let cost := Spec.effective_cost (ServerNode.params peer) maxCost in
  let result := ServerNode.canSend now maxCost peer in
  fst result = peer1
  /\ (cost <= est ->
      snd result
      = Some (0, Float64.div (Float64.of_u64 (est - cost)) (Float64.of_u64 limit)))
  /\ (est < cost -> rate <> 0 ->
      snd result
      = Some (I64.of_u64 (U64.mul (cost - est) Millisecond / rate), Float64.zero))
  /\ (est < cost -> 0 < rate -> limit * Millisecond < 2 ^ 63 ->
      snd result = Some ((cost - est) * Millisecond / rate, Float64.zero)).
Proof.
  intros HL limit rate peer1 est cost result.
  assert (Hest : 0 <= est <= limit) by apply (recalcBLE_inv _ HL now peer eq_refl).
  assert (Hcost : 0 <= cost <= limit).
  { unfold cost, Spec.effective_cost. fold limit.
    pose proof (u64_wrap_range
                  (maxCost + U64.mul Millisecond (MinRecharge (ServerNode.params peer))
                             / Millisecond)) as Hw.
    unfold U64.in_range, U64.add in *. fold limit in HL. lia. }
  assert (E : result =
              if est >=? cost then
                (peer1, Some (0, Float64.div (Float64.of_u64 (U64.sub est cost))
                                             (Float64.of_u64 limit)))
              else
                (peer1,
                 match U64.div (U64.mul (U64.sub cost est) Millisecond) rate with
                 | Some q => Some (I64.of_u64 q, Float64.zero)
                 | None => None
                 end)).
  { unfold result, ServerNode.canSend. cbv zeta. fold peer1.
    rewrite clamp_min, safetyMargin_u64, fcTimeConst_u64. reflexivity. }
  unfold U64.in_range in HL. fold limit in HL.
  rewrite E. destruct (Z.geb_spec est cost) as [Hge | Hlt]; cbn [fst snd].
  - split; [reflexivity |]. split; [| split; intros; lia].
    intros _. rewrite u64_sub_exact by (unfold U64.in_range; lia). reflexivity.
  - split; [reflexivity |]. split; [intros; lia |].
    rewrite (u64_sub_exact cost est) by (unfold U64.in_range; lia).
    split.
    + intros _ Hr. rewrite (u64_div_nonzero _ _ Hr). reflexivity.
    + intros _ Hr Hfit. rewrite u64_div_nonzero by lia.
      assert (Hprod : 0 <= (cost - est) * Millisecond < 2 ^ 63).
      { unfold Millisecond in *. lia. }
      unfold U64.mul. rewrite u64_wrap_small by (unfold U64.in_range, U64.modulus; lia).
      unfold I64.of_u64. rewrite i64_wrap_small; [reflexivity |].
      unfold I64.in_range.
      assert (0 <= (cost - est) * Millisecond / rate <= (cost - est) * Millisecond).
      { split; [apply Z.div_pos; lia | apply Z.div_le_upper_bound; nia]. }
      lia.
Qed.

Lemma canSend_result_witness :
  snd (ServerNode.canSend (Scenario.ms 0) 150 Scenario.server_F)
  = Some (1500000, Float64.zero)
  /\ snd (ServerNode.canSend (Scenario.ms 0) 100 Scenario.server_C)
     = Some (0, Float64.div (Float64.of_u64 200) (Float64.of_u64 1000)).
Proof.
  split.
  - destruct (canSend_result Scenario.server_F (Scenario.ms 0) 150)
      as (_ & _ & _ & Hd); [by_evaluation |].
    rewrite Hd; by_evaluation.
  - destruct (canSend_result Scenario.server_C (Scenario.ms 0) 100)
      as (_ & Hz & _); [by_evaluation |].
    rewrite Hz; by_evaluation.
Defined.

(** ** The client side accounting (section 4.2) *)

(** Recharge at the time of the last recharge adds nothing: it only clamps. *)
Lemma recalcBV_same_time (t : Z) (peer : ClientNode.t) :
  ClientNode.lastTime peer = t ->
  ClientNode.bufValue (ClientNode.recalcBV t peer)
  = Z.min (BufLimit (ClientNode.params peer)) (U64.wrap (ClientNode.bufValue peer)).
Proof.
  intros Ht. unfold ClientNode.recalcBV. cbn. rewrite Ht, Z.ltb_irrefl, clamp_min.
  unfold I64.sub. rewrite Z.sub_diag. cbn [I64.wrap].
  replace (I64.to_u64 (I64.wrap 0)) with 0 by reflexivity.
  unfold U64.mul. rewrite Z.mul_0_r.
  replace (U64.wrap 0 / I64.to_u64 fcTimeConst) with 0 by reflexivity.
  unfold U64.add. rewrite Z.add_0_r. reflexivity.
Qed.

(** C5: [RequestProcessed(cost)] recharges at the current time [t],
    subtracts [cost] from [buf_value] modulo [2^64], recharges again at the
    same [t] (which only clamps), asks the manager's [processed] hook for
    [(rc_value, real_cost)] and, when [rc_value < buf_limit], raises
    [buf_value] to [max(buf_value, buf_limit - rc_value)]; this last step
    never lowers [buf_value], and the operation returns the final
    [buf_value] with [real_cost]. *)
Theorem RequestProcessed_steps (cm : ClientManager) (peer : ClientNode.t) (now cost : Z) :
  U64.in_range (BufLimit (ClientNode.params peer)) ->
  U64.in_range (fst (processed cm now)) ->
  let limit := BufLimit (ClientNode.params peer) in
  let rc_value := fst (processed cm now) in
  let real_cost := snd (processed cm now) in
  let peer1 := ClientNode.recalcBV now peer in
  let debited := {| ClientNode.params := ClientNode.params peer1;
                    ClientNode.bufValue := U64.sub (ClientNode.bufValue peer1) cost;
                    ClientNode.lastTime := ClientNode.lastTime peer1 |} in
  let peer2 := ClientNode.recalcBV now debited in
  let result := ClientNode.RequestProcessed cm now cost peer in
  let final := ClientNode.bufValue (fst result) in
  ClientNode.bufValue peer2 = Z.min limit (U64.sub (ClientNode.bufValue peer1) cost)
  /\ final = (if rc_value <? limit
              then Z.max (ClientNode.bufValue peer2) (limit - rc_value)
              else ClientNode.bufValue peer2)
  /\ ClientNode.bufValue peer2 <= final
  /\ snd result = (final, real_cost)
  /\ ClientNode.lastTime (fst result) = now
  /\ ClientNode.params (fst result) = ClientNode.params peer.
Proof.
  intros HL Hrc limit rc_value real_cost peer1 debited peer2 result final.
  split.
  { unfold peer2. rewrite recalcBV_same_time by reflexivity. cbn.
    f_equal. apply u64_wrap_small, u64_wrap_range. }
  assert (E : result =
              let peer3 :=
                if rc_value <? limit then
                  if U64.sub limit rc_value >? ClientNode.bufValue peer2 then
                    {| ClientNode.params := ClientNode.params peer2;
                       ClientNode.bufValue := U64.sub limit rc_value;
                       ClientNode.lastTime := ClientNode.lastTime peer2 |}
                  else peer2
                else peer2 in
              (peer3, (ClientNode.bufValue peer3, real_cost))).
  { unfold result, ClientNode.RequestProcessed. cbv zeta.
    fold peer1. fold debited. fold peer2.
    unfold rc_value, real_cost. destruct (processed cm now) as [rc rcost]. reflexivity. }
  unfold final. rewrite E. cbv zeta. clear E.
  unfold U64.in_range in *. fold limit in HL. fold rc_value in Hrc.
  destruct (Z.ltb_spec rc_value limit) as [Hlt | Hge].
  - rewrite (u64_sub_exact limit rc_value) by (unfold U64.in_range; lia).
    destruct (Z.gtb_spec (limit - rc_value) (ClientNode.bufValue peer2)) as [Hgt | Hle];
      cbn [fst snd ClientNode.bufValue ClientNode.lastTime ClientNode.params];
      repeat split; try reflexivity; lia.
  - cbn [fst snd]. repeat split; try reflexivity; lia.
Qed.

Lemma RequestProcessed_steps_witness :
  ClientNode.RequestProcessed Scenario.manager (Scenario.ms 0) 300
    (NewClientNode Scenario.params (Scenario.ms 0))
  = ({| ClientNode.params := Scenario.params;
        ClientNode.bufValue := 700;
        ClientNode.lastTime := Scenario.ms 0 |}, (700, 300))
  /\ 700 <= ClientNode.bufValue
              (fst (ClientNode.RequestProcessed Scenario.manager (Scenario.ms 0) 300
                      (NewClientNode Scenario.params (Scenario.ms 0)))).
Proof.
  destruct (RequestProcessed_steps Scenario.manager
              (NewClientNode Scenario.params (Scenario.ms 0)) (Scenario.ms 0) 300)
    as (E2 & _ & Hle & _); [by_evaluation .. |].
  split; [reflexivity |].
  rewrite E2 in Hle. exact Hle.
Defined.

(** ** Requests in flight *)

(** C6: on a tracker freshly initialised with [buf_limit = L] and
    [min_recharge = R], [QueueRequest(id, c)] followed at the same time by
    [GotReply(id, L)] yields [buf_estimate = L], whatever [id] and [c]. *)
Theorem round_trip (L R now id c : Z) :
  U64.in_range L ->
  let fresh := NewServerNode {| BufLimit := L; MinRecharge := R |} now in
  ServerNode.bufEstimate (ServerNode.GotReply now id L (ServerNode.QueueRequest id c fresh))
  = L.
Proof.
  intros HL fresh. unfold ServerNode.GotReply, ServerNode.QueueRequest. cbn.
  rewrite lookup_insert_eq. cbn.
  rewrite u64_sub_diag. unfold U64.in_range in HL.
  rewrite (clamp_min L L), Z.min_id.
  destruct (Z.gtb_spec L 0) as [Hpos | Hzero]; [| lia].
  unfold U64.sub. rewrite Z.sub_0_r. apply u64_wrap_small. exact HL.
Qed.

Lemma round_trip_witness :
  U64.in_range 1000
  /\ ServerNode.bufEstimate
       (ServerNode.GotReply (Scenario.ms 0) 1 1000
          (ServerNode.QueueRequest 1 1200 (NewServerNode Scenario.params (Scenario.ms 0))))
     = 1000.
Proof.
  split; [by_evaluation |].
  apply (round_trip 1000 100 (Scenario.ms 0) 1 1200). by_evaluation.
Defined.

(** C7: for a [reqID] that is not pending, [GotReply(reqID, bv)] changes
    nothing, whatever [bv]: [buf_estimate], [sum_cost], [last_time] and
    the pending map stay as they are, and there is no error to return. *)
Theorem GotReply_unknown (peer : ServerNode.t) (now reqID bv : Z) :
  ServerNode.pending peer !! reqID = None ->
  ServerNode.GotReply now reqID bv peer = peer.
Proof.
  intros Hnone. unfold ServerNode.GotReply. cbv zeta. rewrite Hnone. reflexivity.
Qed.

Lemma GotReply_unknown_witness :
  ServerNode.pending Scenario.server_C !! 99 = None
  /\ ServerNode.GotReply (Scenario.ms 5) 99 999 Scenario.server_C = Scenario.server_C.
Proof.
  split; [reflexivity |].
  apply (GotReply_unknown Scenario.server_C (Scenario.ms 5) 99 999). reflexivity.
Defined.

(** C10: [QueueRequest] does not check that the request id is new: called
    with a [reqID] that is already pending, it replaces the snapshot stored
    for [reqID] by the new [sum_cost] (the map gets no second entry, the
    earlier snapshot is gone), and still subtracts the cost from
    [buf_estimate] and adds it to [sum_cost]. *)
Theorem QueueRequest_overwrites (peer : ServerNode.t) (reqID c old : Z) :
  ServerNode.pending peer !! reqID = Some old ->
  let peer' := ServerNode.QueueRequest reqID c peer in
  ServerNode.pending peer' !! reqID = Some (U64.add (ServerNode.sumCost peer) c)
  /\ (forall id : Z, id <> reqID ->
        ServerNode.pending peer' !! id = ServerNode.pending peer !! id)
  /\ dom (ServerNode.pending peer') = dom (ServerNode.pending peer)
  /\ ServerNode.bufEstimate peer' = U64.sub (ServerNode.bufEstimate peer) c
  /\ ServerNode.sumCost peer' = U64.add (ServerNode.sumCost peer) c.
Proof.
  intros Hold peer'. unfold peer', ServerNode.QueueRequest. cbn.
  split; [apply lookup_insert_eq |].
  split; [intros id Hne; apply lookup_insert_ne; congruence |].
  split; [| split; reflexivity].
  rewrite dom_insert_L. apply subseteq_union_1_L, singleton_subseteq_l, elem_of_dom.
  exists old. exact Hold.
Qed.

Lemma QueueRequest_overwrites_witness :
  let peer' := ServerNode.QueueRequest 1 50 Scenario.server_C in
  ServerNode.pending Scenario.server_C !! 1 = Some 400
  /\ ServerNode.pending peer' !! 1 = Some 650
  /\ ServerNode.bufEstimate peer' = 350
  /\ ServerNode.sumCost peer' = 650.
Proof.
  destruct (QueueRequest_overwrites Scenario.server_C 1 50 400)
    as (Hn & _ & _ & He & Hs); [reflexivity |].
  split; [reflexivity |]. split; [rewrite Hn; reflexivity |].
  split; [rewrite He | rewrite Hs]; reflexivity.
Defined.

(** ** The division in [canSend] *)

(** C9: [canSend] is total exactly when [MinRecharge > 0]. With
    [MinRecharge > 0] it returns a result on every tracker and every input;
    with [MinRecharge = 0] it divides by zero whenever [buf_estimate] is
    below the clamped effective cost, and such an input exists (a tracker
    with [buf_limit = 1000] whose estimate is down to 100, asked for a cost
    of 500). *)
Theorem canSend_total_iff_recharge :
  (forall (peer : ServerNode.t) (now maxCost : Z),
      0 < MinRecharge (ServerNode.params peer) ->
      exists r, snd (ServerNode.canSend now maxCost peer) = Some r)
  /\ (forall (peer : ServerNode.t) (now maxCost : Z),
         MinRecharge (ServerNode.params peer) = 0 ->
         ServerNode.bufEstimate (ServerNode.recalcBLE now peer)
         < Spec.effective_cost (ServerNode.params peer) maxCost ->
         snd (ServerNode.canSend now maxCost peer) = None)
  /\ (MinRecharge (ServerNode.params Scenario.server_no_recharge) = 0
      /\ ServerNode.bufEstimate (ServerNode.recalcBLE (Scenario.ms 0) Scenario.server_no_recharge)
         < Spec.effective_cost (ServerNode.params Scenario.server_no_recharge) 500
      /\ snd (ServerNode.canSend (Scenario.ms 0) 500 Scenario.server_no_recharge) = None).
Proof.
  split; [| split].
  - intros peer now maxCost Hr. unfold ServerNode.canSend. cbv zeta.
    match goal with |- context [if ?b then _ else _] => destruct b end; cbn [snd].
    + eexists. reflexivity.
    + cbn [ServerNode.recalcBLE ServerNode.params].
      rewrite u64_div_nonzero by lia. eexists. reflexivity.
  - intros peer now maxCost Hr Hlt. unfold ServerNode.canSend. cbv zeta.
    rewrite clamp_min, safetyMargin_u64, fcTimeConst_u64.
    cbn [ServerNode.recalcBLE ServerNode.params] in *.
    change (Z.min (BufLimit (ServerNode.params peer))
              (U64.add maxCost
                 (U64.mul Millisecond (MinRecharge (ServerNode.params peer)) / Millisecond)))
      with (Spec.effective_cost (ServerNode.params peer) maxCost).
    destruct (Z.geb_spec
                (ServerNode.bufEstimate (ServerNode.recalcBLE now peer))
                (Spec.effective_cost (ServerNode.params peer) maxCost)) as [Hge | _].
    + lia.
    + cbn [snd]. rewrite Hr. reflexivity.
  - by_evaluation.
Qed.

Lemma canSend_total_iff_recharge_witness :
  0 < MinRecharge (ServerNode.params Scenario.server_F)
  /\ exists r, snd (ServerNode.canSend (Scenario.ms 0) 500 Scenario.server_F) = Some r.
Proof.
  split; [reflexivity |].
  apply (proj1 canSend_total_iff_recharge Scenario.server_F (Scenario.ms 0) 500).
  reflexivity.
Defined.

(** ** The cost of a request (section 6.1) *)

(** Converting a signed amount before an unsigned product changes nothing. *)
Lemma u64_mul_to_u64 (a b : Z) : U64.mul a (I64.to_u64 b) = U64.mul a b.
Proof.
  unfold U64.mul, U64.wrap, I64.to_u64, U64.modulus. apply Zmult_mod_idemp_r.
Qed.

(** C8: for a peer with the cost table [fcCosts] and the negotiated
    [buf_limit], [GetRequestCost(msgcode, amount)] returns
    [min(buf_limit, base_cost(msgcode) + req_cost(msgcode) * amount)], the
    sum and the product being those of [uint64]; when they do not overflow
    this is the cost of the integers, clamped to [buf_limit]. *)
Theorem GetRequestCost_clamped
    (p : les.peer) (params : ServerParams) (c : les.requestCosts) (msgcode amount : Z) :
  les.fcServerParams p = Some params ->
  les.fcCosts p !! msgcode = Some c ->
  les.GetRequestCost msgcode amount p
  = Some (Spec.request_cost (BufLimit params) (les.baseCost c) (les.reqCost c) amount)
  /\ (0 <= les.baseCost c -> 0 <= les.reqCost c -> 0 <= amount ->
      les.baseCost c + les.reqCost c * amount < U64.modulus ->
      les.GetRequestCost msgcode amount p
      = Some (Z.min (BufLimit params) (les.baseCost c + les.reqCost c * amount))).
Proof.
  intros Hparams Hc.
  assert (E : les.GetRequestCost msgcode amount p
              = Some (Spec.request_cost (BufLimit params) (les.baseCost c) (les.reqCost c)
                        amount)).
  { unfold les.GetRequestCost. rewrite Hc, Hparams. cbv zeta.
    rewrite clamp_min, u64_mul_to_u64. reflexivity. }
  split; [exact E |].
  intros Hb Hr Ha Hfit. rewrite E. unfold Spec.request_cost. do 2 f_equal.
  assert (Hprod : 0 <= les.reqCost c * amount) by (apply Z.mul_nonneg_nonneg; assumption).
  unfold U64.mul. rewrite (u64_wrap_small (les.reqCost c * amount))
    by (unfold U64.in_range; lia).
  apply u64_wrap_small. unfold U64.in_range. lia.
Qed.

Lemma GetRequestCost_clamped_witness :
  les.fcCosts Scenario.peer_3 !! 3 = Some {| les.baseCost := 10; les.reqCost := 7 |}
  /\ les.GetRequestCost 3 5 Scenario.peer_3 = Some 45
  /\ les.GetRequestCost 3 500 Scenario.peer_3 = Some 1000.
Proof.
  split; [reflexivity |]. split.
  - destruct (GetRequestCost_clamped Scenario.peer_3 Scenario.params
                {| les.baseCost := 10; les.reqCost := 7 |} 3 5) as [_ E];
      [reflexivity .. |].
    rewrite E; by_evaluation.
  - destruct (GetRequestCost_clamped Scenario.peer_3 Scenario.params
                {| les.baseCost := 10; les.reqCost := 7 |} 3 500) as [_ E];
      [reflexivity .. |].
    rewrite E; by_evaluation.
Defined.

(** ** The scenarios of section 8, evaluated *)

(** Scenario A: after a request of cost 300 the client's buffer is 700; two
    milliseconds later it is 900, and after 100 milliseconds it is full. *)
Example scenario_A :
  ClientNode.bufValue Scenario.client_A = 700
  /\ snd (ClientNode.AcceptRequest Scenario.manager (Scenario.ms 2) Scenario.client_A)
     = (900, true)
  /\ snd (ClientNode.AcceptRequest Scenario.manager (Scenario.ms 100) Scenario.client_A)
     = (1000, true).
Proof. by_evaluation. Qed.

(** Scenario B: a cost above the limit is admitted at once on a full
    estimate, with no headroom left. *)
Example scenario_B :
  snd (ServerNode.CanSend (Scenario.ms 0) 1200 (NewServerNode Scenario.params (Scenario.ms 0)))
  = Some (0, Float64.zero).
Proof. by_evaluation. Qed.

(** Scenario E: a clock reading before [last_time] recharges nothing and
    moves [last_time] back. *)
Example scenario_E :
  let peer := fst (ClientNode.AcceptRequest Scenario.manager (Scenario.ms 10) Scenario.client_A) in
  let peer' := fst (ClientNode.AcceptRequest Scenario.manager (Scenario.ms 5) peer) in
  ClientNode.bufValue peer' = ClientNode.bufValue peer
  /\ ClientNode.lastTime peer = Scenario.ms 10
  /\ ClientNode.lastTime peer' = Scenario.ms 5.
Proof. by_evaluation. Qed.

(** * Further properties of the flow control *)

Import Queue.

(** ** Recharge *)

(** What recharge adds is less than [2^64 / 10^6]. *)
Lemma recharge_gain_bound (rate dt : Z) :
  0 <= U64.mul rate dt / I64.to_u64 fcTimeConst <= U64.modulus / Millisecond.
Proof.
  rewrite fcTimeConst_u64. pose proof (u64_wrap_range (rate * dt)) as Hw.
  unfold U64.in_range in Hw. unfold U64.mul. split.
  - apply Z.div_pos; [lia | reflexivity].
  - apply Z.div_le_mono; [reflexivity | lia].
Qed.

Lemma recharge_step_monotone (limit B gain : Z) :
  0 <= B <= limit -> 0 <= gain <= U64.modulus / Millisecond ->
  limit + U64.modulus / Millisecond < U64.modulus ->
  B <= (if U64.add B gain >? limit then limit else U64.add B gain) <= limit.
Proof.
  intros HB Hg HL. unfold U64.add.
  rewrite u64_wrap_small by (unfold U64.in_range; lia).
  destruct (Z.gtb_spec (B + gain) limit); lia.
Qed.

(** X1: as long as [buf_limit] leaves room for one recharge below [2^64],
    recharging a buffer that is under the ceiling never lowers it, on either
    tracker and whatever the clock says. *)
Theorem recharge_never_lowers (c : ClientNode.t) (s : ServerNode.t) (t : Z) :
  BufLimit (ClientNode.params c) + U64.modulus / Millisecond < U64.modulus ->
  BufLimit (ServerNode.params s) + U64.modulus / Millisecond < U64.modulus ->
  0 <= ClientNode.bufValue c <= BufLimit (ClientNode.params c) ->
  0 <= ServerNode.bufEstimate s <= BufLimit (ServerNode.params s) ->
  ClientNode.bufValue c <= ClientNode.bufValue (ClientNode.recalcBV t c)
  /\ ServerNode.bufEstimate s <= ServerNode.bufEstimate (ServerNode.recalcBLE t s).
Proof.
  intros HLc HLs Hc Hs. split; cbn.
  - apply recharge_step_monotone; [exact Hc | apply recharge_gain_bound | exact HLc].
  - apply recharge_step_monotone; [exact Hs | apply recharge_gain_bound | exact HLs].
Qed.

Lemma recharge_never_lowers_witness :
  ClientNode.bufValue Scenario.client_A
  <= ClientNode.bufValue (ClientNode.recalcBV (Scenario.ms 2) Scenario.client_A)
  /\ ServerNode.bufEstimate Scenario.server_C
     <= ServerNode.bufEstimate (ServerNode.recalcBLE (Scenario.ms 2) Scenario.server_C).
Proof.
  apply (recharge_never_lowers Scenario.client_A Scenario.server_C (Scenario.ms 2));
    by_evaluation.
Defined.

(** The hypothesis on [buf_limit] is needed: at the top of [uint64] a full
    buffer wraps around to zero after one nanosecond. *)
Example recharge_wraps_at_the_top :
  ClientNode.bufValue
    (ClientNode.recalcBV 1 (NewClientNode {| BufLimit := 2 ^ 64 - 1; MinRecharge := 1000000 |} 0))
  = 0.
Proof. reflexivity. Qed.

Lemma div_sum_bounds (a b : Z) :
  0 <= a -> 0 <= b ->
  a / Millisecond + b / Millisecond <= (a + b) / Millisecond
  /\ (a + b) / Millisecond <= a / Millisecond + b / Millisecond + 1.
Proof. intros Ha Hb. unfold Millisecond. Z.div_mod_to_equations. lia. Qed.

Lemma recharge_min (params : ServerParams) (B last t : Z) :
  last <= t -> 0 <= MinRecharge params -> 0 <= B <= BufLimit params ->
  MinRecharge params * (t - last) < U64.modulus ->
  BufLimit params + U64.modulus / Millisecond < U64.modulus ->
  Spec.recharge params B last t
  = (Z.min (BufLimit params) (B + MinRecharge params * (t - last) / Millisecond), t).
Proof.
  intros Ht HR HB Hmul HL.
  pose proof (recharge_exact params B last t) as E. cbv zeta in E.
  replace (Z.max 0 (t - last)) with (t - last) in E by lia.
  apply E; try lia.
  assert (MinRecharge params * (t - last) / Millisecond <= U64.modulus / Millisecond).
  { apply Z.div_le_mono; [reflexivity | lia]. }
  lia.
Qed.

Lemma recalcBV_fields (t : Z) (c : ClientNode.t) :
  I64.in_range t -> I64.in_range (ClientNode.lastTime c) ->
  ClientNode.bufValue (ClientNode.recalcBV t c)
  = fst (Spec.recharge (ClientNode.params c) (ClientNode.bufValue c) (ClientNode.lastTime c) t)
  /\ ClientNode.lastTime (ClientNode.recalcBV t c) = t
  /\ ClientNode.params (ClientNode.recalcBV t c) = ClientNode.params c.
Proof.
  intros Ht Hl. pose proof (recalcBV_recharge t Ht c Hl) as E. cbv zeta in E.
  rewrite <- E. repeat split.
Qed.

Lemma recalcBLE_fields (t : Z) (s : ServerNode.t) :
  I64.in_range t -> I64.in_range (ServerNode.lastTime s) ->
  ServerNode.bufEstimate (ServerNode.recalcBLE t s)
  = fst (Spec.recharge (ServerNode.params s) (ServerNode.bufEstimate s)
           (ServerNode.lastTime s) t)
  /\ ServerNode.lastTime (ServerNode.recalcBLE t s) = t
  /\ ServerNode.params (ServerNode.recalcBLE t s) = ServerNode.params s.
Proof.
  intros Ht Hl. pose proof (recalcBLE_recharge t Ht s Hl) as E. cbv zeta in E.
  rewrite <- E. repeat split.
Qed.

Section TwoSteps.

Variable params : ServerParams.
Variables B last t1 t2 : Z.
Hypothesis last_i64 : I64.in_range last.
Hypothesis t1_i64 : I64.in_range t1.
Hypothesis t2_i64 : I64.in_range t2.
Hypothesis times : last <= t1 <= t2.
Hypothesis rate : 0 <= MinRecharge params.
Hypothesis no_overflow : MinRecharge params * (t2 - last) < U64.modulus.
Hypothesis under_ceiling : 0 <= B <= BufLimit params.
Hypothesis room : BufLimit params + U64.modulus / Millisecond < U64.modulus.

Lemma recharge_two_steps :
  let B1 := fst (Spec.recharge params B last t1) in
  let B2 := fst (Spec.recharge params B1 t1 t2) in
  let B12 := fst (Spec.recharge params B last t2) in
  B2 <= B12 <= B2 + 1.
Proof.
  set (f1 := MinRecharge params * (t1 - last) / Millisecond).
  set (f2 := MinRecharge params * (t2 - t1) / Millisecond).
  set (f12 := MinRecharge params * (t2 - last) / Millisecond).
  assert (Hf : f1 + f2 <= f12 /\ f12 <= f1 + f2 + 1).
  { unfold f1, f2, f12.
    replace (MinRecharge params * (t2 - last))
      with (MinRecharge params * (t1 - last) + MinRecharge params * (t2 - t1)) by lia.
    apply div_sum_bounds; apply Z.mul_nonneg_nonneg; lia. }
  assert (Hf1 : 0 <= f1) by (apply Z.div_pos; [apply Z.mul_nonneg_nonneg; lia | reflexivity]).
  assert (Hf2 : 0 <= f2) by (apply Z.div_pos; [apply Z.mul_nonneg_nonneg; lia | reflexivity]).
  assert (Hm1 : MinRecharge params * (t1 - last) < U64.modulus) by nia.
  assert (Hm2 : MinRecharge params * (t2 - t1) < U64.modulus) by nia.
  intros B1 B2 B12. unfold B2, B12, B1.
  rewrite (recharge_min params B last t1) by lia. cbn [fst].
  rewrite (recharge_min params _ t1 t2) by lia.
  rewrite (recharge_min params B last t2) by lia. cbn [fst].
  change (MinRecharge params * (t1 - last) / Millisecond) with f1.
  change (MinRecharge params * (t2 - t1) / Millisecond) with f2.
  change (MinRecharge params * (t2 - last) / Millisecond) with f12.
  clearbody f1 f2 f12. clear no_overflow Hm1 Hm2. lia.
Qed.

(** X2: recharging in two steps instead of one never gives more, and loses
    at most one unit: each recharge drops the fraction of a unit that the
    elapsed time has earned. This holds on both trackers. *)
Theorem recharge_in_two_steps (c : ClientNode.t) (s : ServerNode.t) :
  c = {| ClientNode.params := params; ClientNode.bufValue := B;
         ClientNode.lastTime := last |} ->
  ServerNode.params s = params /\ ServerNode.bufEstimate s = B
  /\ ServerNode.lastTime s = last ->
  let c2 := ClientNode.bufValue (ClientNode.recalcBV t2 (ClientNode.recalcBV t1 c)) in
  let c1 := ClientNode.bufValue (ClientNode.recalcBV t2 c) in
  let s2 := ServerNode.bufEstimate (ServerNode.recalcBLE t2 (ServerNode.recalcBLE t1 s)) in
  let s1 := ServerNode.bufEstimate (ServerNode.recalcBLE t2 s) in
  (c2 <= c1 <= c2 + 1) /\ (s2 <= s1 <= s2 + 1).
Proof.
  intros Hc (Hps & HBs & Hls) c2 c1 s2 s1.
  pose proof recharge_two_steps as Hsteps. cbv zeta in Hsteps.
  split.
  - assert (Hlc : ClientNode.lastTime c = last) by (subst c; reflexivity).
    destruct (recalcBV_fields t1 c) as (Ea & Ela & Epa); [assumption | congruence |].
    destruct (recalcBV_fields t2 (ClientNode.recalcBV t1 c)) as (Eb & _);
      [assumption | congruence |].
    destruct (recalcBV_fields t2 c) as (Ec & _); [assumption | congruence |].
    unfold c2, c1. rewrite Eb, Ec, Epa, Ela, Ea. subst c. exact Hsteps.
  - destruct (recalcBLE_fields t1 s) as (Ea & Ela & Epa); [assumption | congruence |].
    destruct (recalcBLE_fields t2 (ServerNode.recalcBLE t1 s)) as (Eb & _);
      [assumption | congruence |].
    destruct (recalcBLE_fields t2 s) as (Ec & _); [assumption | congruence |].
    unfold s2, s1. rewrite Eb, Ec, Epa, Ela, Ea, Hps, HBs, Hls. exact Hsteps.
Qed.

End TwoSteps.

Lemma recharge_in_two_steps_witness :
  let c := {| ClientNode.params := Scenario.params; ClientNode.bufValue := 400;
              ClientNode.lastTime := 0 |} in
  ClientNode.bufValue (ClientNode.recalcBV 10000 (ClientNode.recalcBV 5000 c)) = 400
  /\ ClientNode.bufValue (ClientNode.recalcBV 10000 c) = 401
  /\ ServerNode.bufEstimate
       (ServerNode.recalcBLE 10000 (ServerNode.recalcBLE 5000 Scenario.server_C))
     <= ServerNode.bufEstimate (ServerNode.recalcBLE 10000 Scenario.server_C).
Proof.
  intros c.
  pose proof (recharge_in_two_steps Scenario.params 400 0 5000 10000
                ltac:(by_evaluation) ltac:(by_evaluation) ltac:(by_evaluation)
                ltac:(by_evaluation) ltac:(by_evaluation) ltac:(by_evaluation)
                ltac:(by_evaluation) ltac:(by_evaluation)
                c Scenario.server_C eq_refl ltac:(by_evaluation)) as [_ [Hs _]].
  split; [reflexivity |]. split; [reflexivity | exact Hs].
Defined.

(** ** Waiting before a request *)

(** The two branches of [canSend], on the recharged estimate and the
    effective cost. *)
Lemma canSend_cases (peer : ServerNode.t) (now maxCost : Z) :
  U64.in_range (BufLimit (ServerNode.params peer)) ->
  let limit := BufLimit (ServerNode.params peer) in
  let peer1 := ServerNode.recalcBLE now peer in
  let est := ServerNode.bufEstimate peer1 in
  let cost := Spec.effective_cost (ServerNode.params peer) maxCost in
  0 <= est <= limit /\ 0 <= cost <= limit
  /\ ServerNode.canSend now maxCost peer
     = if est >=? cost then
         (peer1, Some (0, Float64.div (Float64.of_u64 (est - cost)) (Float64.of_u64 limit)))
       else
         (peer1,
          match U64.div (U64.mul (cost - est) Millisecond)
                        (MinRecharge (ServerNode.params peer)) with
          | Some q => Some (I64.of_u64 q, Float64.zero)
          | None => None
          end).
Proof.
  intros HL limit peer1 est cost.
  assert (Hest : 0 <= est <= limit) by apply (recalcBLE_inv _ HL now peer eq_refl).
  assert (Hcost : 0 <= cost <= limit).
  { unfold cost, Spec.effective_cost. fold limit.
    pose proof (u64_wrap_range
                  (maxCost + U64.mul Millisecond (MinRecharge (ServerNode.params peer))
                             / Millisecond)) as Hw.
    unfold U64.in_range, U64.add in *. fold limit in HL. lia. }
  split; [exact Hest |]. split; [exact Hcost |].
  unfold ServerNode.canSend. cbv zeta. fold peer1.
  rewrite clamp_min, safetyMargin_u64, fcTimeConst_u64.
  change (ServerNode.params peer1) with (ServerNode.params peer).
  change (Z.min (BufLimit (ServerNode.params peer))
            (U64.add maxCost
               (U64.mul Millisecond (MinRecharge (ServerNode.params peer)) / Millisecond)))
    with cost.
  fold est. unfold U64.in_range in HL. fold limit in HL.
  destruct (Z.geb_spec est cost) as [Hge | Hlt].
  - rewrite u64_sub_exact by (unfold U64.in_range; lia). reflexivity.
  - rewrite (u64_sub_exact cost est) by (unfold U64.in_range; lia). reflexivity.
Qed.

(** The safety margin is [MinRecharge] itself, and the effective cost is
    [maxCost + MinRecharge], when this sum stays under the limit. *)
Lemma effective_cost_unclamped (params : ServerParams) (maxCost : Z) :
  0 <= maxCost -> 0 <= MinRecharge params ->
  MinRecharge params * Millisecond < U64.modulus ->
  maxCost + MinRecharge params < U64.modulus ->
  Spec.effective_cost params maxCost
  = Z.min (BufLimit params) (maxCost + MinRecharge params).
Proof.
  intros Hc HR Hm Hs. unfold Spec.effective_cost, U64.mul.
  rewrite (u64_wrap_small (Millisecond * MinRecharge params))
    by (unfold U64.in_range, Millisecond in *; lia).
  rewrite Z.mul_comm, Z.div_mul by discriminate.
  unfold U64.add. rewrite u64_wrap_small by (unfold U64.in_range; lia). reflexivity.
Qed.

(** The delay of the second branch, when [buf_limit] milliseconds fit a
    duration. *)
Lemma delay_exact (limit rate D : Z) :
  0 < D <= limit -> 0 < rate -> limit * Millisecond < 2 ^ 63 ->
  U64.div (U64.mul D Millisecond) rate = Some (D * Millisecond / rate)
  /\ I64.of_u64 (D * Millisecond / rate) = D * Millisecond / rate
  /\ 0 <= D * Millisecond / rate <= D * Millisecond.
Proof.
  intros HD Hr Hfit.
  assert (Hprod : 0 <= D * Millisecond < 2 ^ 63) by (unfold Millisecond in *; lia).
  assert (Hq : 0 <= D * Millisecond / rate <= D * Millisecond).
  { split; [apply Z.div_pos; lia | apply Z.div_le_upper_bound; nia]. }
  split; [| split; [| exact Hq]].
  - rewrite u64_div_nonzero by lia. unfold U64.mul.
    rewrite u64_wrap_small by (unfold U64.in_range, U64.modulus; lia). reflexivity.
  - unfold I64.of_u64. apply i64_wrap_small. unfold I64.in_range. lia.
Qed.

Lemma canSend_state (peer : ServerNode.t) (now maxCost : Z) :
  fst (ServerNode.canSend now maxCost peer) = ServerNode.recalcBLE now peer.
Proof.
  unfold ServerNode.canSend. cbv zeta.
  match goal with |- context [if ?b then _ else _] => destruct b end; reflexivity.
Qed.

Lemma QueueRequest_exact (reqID maxCost : Z) (peer : ServerNode.t) :
  0 <= maxCost <= ServerNode.bufEstimate peer ->
  U64.in_range (ServerNode.bufEstimate peer) ->
  ServerNode.bufEstimate (ServerNode.QueueRequest reqID maxCost peer)
  = ServerNode.bufEstimate peer - maxCost.
Proof. intros Hc He. cbn. apply u64_sub_exact; assumption. Qed.

(** X3: with a recharge rate of at most one unit per nanosecond and a
    [buf_limit] whose milliseconds fit a duration, a request of cost at
    most [buf_limit] for which [canSend] returns no delay fits the
    estimate: the [QueueRequest] that follows subtracts without wrapping
    around. *)
Theorem request_without_delay_fits (peer : ServerNode.t) (now maxCost reqID : Z) (h : spec_float) :
  0 <= BufLimit (ServerNode.params peer) ->
  BufLimit (ServerNode.params peer) * Millisecond < 2 ^ 63 ->
  0 < MinRecharge (ServerNode.params peer) <= Millisecond ->
  0 <= maxCost <= BufLimit (ServerNode.params peer) ->
  snd (ServerNode.canSend now maxCost peer) = Some (0, h) ->
  let peer1 := fst (ServerNode.canSend now maxCost peer) in
  maxCost <= ServerNode.bufEstimate peer1
  /\ ServerNode.bufEstimate (ServerNode.QueueRequest reqID maxCost peer1)
     = ServerNode.bufEstimate peer1 - maxCost.
Proof.
  intros HL0 Hfit HR Hc Hres peer1.
  assert (HL : U64.in_range (BufLimit (ServerNode.params peer))).
  { unfold U64.in_range, U64.modulus, Millisecond in *. lia. }
  destruct (canSend_cases peer now maxCost HL) as (Hest & Hcost & E). cbv zeta in *.
  assert (Ecost : Spec.effective_cost (ServerNode.params peer) maxCost
                  = Z.min (BufLimit (ServerNode.params peer))
                      (maxCost + MinRecharge (ServerNode.params peer))).
  { apply effective_cost_unclamped; unfold U64.modulus, Millisecond in *; lia. }
  assert (Hfits : maxCost <= ServerNode.bufEstimate peer1).
  { unfold peer1. rewrite canSend_state. rewrite E in Hres.
    destruct (Z.geb_spec (ServerNode.bufEstimate (ServerNode.recalcBLE now peer))
                (Spec.effective_cost (ServerNode.params peer) maxCost)) as [Hge | Hlt].
    - lia.
    - exfalso. cbn [snd] in Hres.
      set (D := Spec.effective_cost (ServerNode.params peer) maxCost
                - ServerNode.bufEstimate (ServerNode.recalcBLE now peer)) in *.
      destruct (delay_exact (BufLimit (ServerNode.params peer))
                  (MinRecharge (ServerNode.params peer)) D) as (Ed & Ei & _);
        [unfold D; lia | lia | exact Hfit |].
      rewrite Ed, Ei in Hres. injection Hres as Hzero.
      assert (1 <= D * Millisecond / MinRecharge (ServerNode.params peer)).
      { apply Z.div_le_lower_bound; [lia |]. unfold D, Millisecond in *. nia. }
      lia. }
  split; [exact Hfits |].
  apply QueueRequest_exact; [lia |].
  unfold peer1. rewrite canSend_state. unfold U64.in_range in *. lia.
Qed.

Lemma request_without_delay_fits_witness :
  snd (ServerNode.canSend (Scenario.ms 0) 300 Scenario.server_C)
  = Some (0, Float64.div (Float64.of_u64 0) (Float64.of_u64 1000))
  /\ ServerNode.bufEstimate
       (ServerNode.QueueRequest 3 300
          (fst (ServerNode.canSend (Scenario.ms 0) 300 Scenario.server_C)))
     = 100.
Proof.
  split; [by_evaluation |].
  destruct (request_without_delay_fits Scenario.server_C (Scenario.ms 0) 300 3
              (Float64.div (Float64.of_u64 0) (Float64.of_u64 1000))) as [_ E];
    [by_evaluation .. |].
  rewrite E. reflexivity.
Defined.

(** X4: a client that waits the delay [canSend] returned finds, at its next
    [CanSend], an estimate that covers the request: when the cost with its
    safety margin is under [buf_limit] (and [buf_limit] milliseconds fit a
    duration), the estimate recharged after the delay is at least
    [maxCost], so the [QueueRequest] that follows does not wrap around. *)
Theorem wait_suffices (peer : ServerNode.t) (now maxCost reqID delay : Z) (h : spec_float) :
  BufLimit (ServerNode.params peer) * Millisecond < 2 ^ 63 ->
  0 < MinRecharge (ServerNode.params peer) ->
  0 <= maxCost ->
  maxCost + MinRecharge (ServerNode.params peer) <= BufLimit (ServerNode.params peer) ->
  I64.in_range now -> I64.in_range (now + delay) ->
  snd (ServerNode.canSend now maxCost peer) = Some (delay, h) ->
  let peer1 := fst (ServerNode.canSend now maxCost peer) in
  let peer2 := fst (ServerNode.CanSend (now + delay) maxCost peer1) in
  0 <= delay
  /\ maxCost <= ServerNode.bufEstimate peer2
  /\ ServerNode.bufEstimate (ServerNode.QueueRequest reqID maxCost peer2)
     = ServerNode.bufEstimate peer2 - maxCost.
Proof.
  intros Hfit HR Hc Hsum Hnow Hlater Hres peer1 peer2.
  set (limit := BufLimit (ServerNode.params peer)) in *.
  set (rate := MinRecharge (ServerNode.params peer)) in *.
  assert (HL : U64.in_range limit).
  { unfold U64.in_range, U64.modulus, Millisecond in *. lia. }
  destruct (canSend_cases peer now maxCost HL) as (Hest & Hcost & E). cbv zeta in *.
  fold limit rate in Hest, Hcost, E.
  assert (Ecost : Spec.effective_cost (ServerNode.params peer) maxCost = maxCost + rate).
  { rewrite effective_cost_unclamped; fold rate limit;
      unfold U64.modulus, Millisecond in *; lia. }
  rewrite Ecost in *.
  set (est := ServerNode.bufEstimate (ServerNode.recalcBLE now peer)) in *.
  (* the delay, and what the recharge gains during it *)
  assert (Hdelay : 0 <= delay /\ rate * delay <= limit * Millisecond
                   /\ maxCost <= est + rate * delay / Millisecond).
  { rewrite E in Hres.
    destruct (Z.geb_spec est (maxCost + rate)) as [Hge | Hlt]; cbn [snd] in Hres.
    - injection Hres as Hd _. subst delay. rewrite Z.mul_0_r.
      change (0 / Millisecond) with 0. unfold Millisecond in *. lia.
    - destruct (delay_exact limit rate (maxCost + rate - est)) as (Ed & Ei & Hq);
        [lia | lia | exact Hfit |].
      rewrite Ed, Ei in Hres. injection Hres as Hd. subst delay.
      set (D := maxCost + rate - est) in *.
      assert (Hrd : rate * (D * Millisecond / rate) <= D * Millisecond)
        by (apply Z.mul_div_le; lia).
      assert (Hrd' : D * Millisecond < rate * (D * Millisecond / rate) + rate).
      { pose proof (Z.mul_succ_div_gt (D * Millisecond) rate ltac:(lia)). lia. }
      split; [lia |]. split; [unfold Millisecond in *; nia |].
      set (g := rate * (D * Millisecond / rate)) in *.
      assert (Hg : D - rate <= g / Millisecond).
      { apply Z.div_le_lower_bound; [reflexivity |]. unfold Millisecond in *. nia. }
      unfold D in Hg. lia. }
  destruct Hdelay as (Hd0 & Hmul & Hgain).
  assert (Hest2 : ServerNode.bufEstimate peer2 = Z.min limit (est + rate * delay / Millisecond)).
  { unfold peer2, ServerNode.CanSend, peer1. rewrite !canSend_state.
    destruct (recalcBLE_fields (now + delay) (ServerNode.recalcBLE now peer))
      as (Eb & _); [exact Hlater | exact Hnow |].
    rewrite Eb. change (ServerNode.lastTime (ServerNode.recalcBLE now peer)) with now.
    change (ServerNode.params (ServerNode.recalcBLE now peer)) with (ServerNode.params peer).
    fold est. rewrite recharge_min; fold limit rate.
    - cbn [fst]. replace (now + delay - now) with delay by lia. reflexivity.
    - lia.
    - lia.
    - lia.
    - replace (now + delay - now) with delay by lia.
      unfold U64.modulus, Millisecond in *. lia.
    - change (U64.modulus / Millisecond) with 18446744073709.
      unfold U64.modulus, Millisecond in *. lia. }
  split; [exact Hd0 |]. split; [rewrite Hest2; lia |].
  apply QueueRequest_exact; rewrite Hest2; unfold U64.in_range in *; lia.
Qed.

Lemma wait_suffices_witness :
  snd (ServerNode.canSend (Scenario.ms 0) 150 Scenario.server_F)
  = Some (1500000, Float64.zero)
  /\ 150 <= ServerNode.bufEstimate
              (fst (ServerNode.CanSend (Scenario.ms 0 + 1500000) 150
                      (fst (ServerNode.canSend (Scenario.ms 0) 150 Scenario.server_F)))).
Proof.
  split; [by_evaluation |].
  destruct (wait_suffices Scenario.server_F (Scenario.ms 0) 150 3 1500000 Float64.zero)
    as (_ & H & _); [by_evaluation .. |].
  exact H.
Defined.

(** ** Replies *)

(** Operations that leave request [id] alone keep its snapshot, and add the
    costs they queue to [sum_cost]. *)
Lemma run_keeps_request (id : Z) (ops : list server_op) :
  forall (s : ServerNode.t) (sc : Z),
    ServerNode.pending s !! id = Some sc ->
    U64.in_range (ServerNode.sumCost s) ->
    forallb (leaves_request id) ops = true ->
    ServerNode.pending (server_run ops s) !! id = Some sc
    /\ ServerNode.sumCost (server_run ops s)
       = U64.wrap (ServerNode.sumCost s + queued_cost ops)
    /\ ServerNode.params (server_run ops s) = ServerNode.params s.
Proof.
  induction ops as [| op ops IH]; intros s sc Hsc Hsum Hleave.
  - cbn. rewrite Z.add_0_r, u64_wrap_small by exact Hsum. repeat split. exact Hsc.
  - cbn [forallb] in Hleave. apply andb_prop in Hleave as [Hop Hops].
    change (server_run (op :: ops) s) with (server_run ops (server_step s op)).
    destruct op as [now maxCost | reqID maxCost | now reqID bv]; cbn [leaves_request] in Hop.
    + cbn [server_step queued_cost]. unfold ServerNode.CanSend. rewrite canSend_state.
      apply (IH (ServerNode.recalcBLE now s) sc); assumption.
    + apply negb_true_iff, Z.eqb_neq in Hop.
      destruct (IH (ServerNode.QueueRequest reqID maxCost s) sc) as (Hp & Hs & Hq);
        [cbn; rewrite lookup_insert_ne by exact Hop; exact Hsc
        | apply u64_wrap_range | exact Hops |].
      split; [exact Hp |]. split; [| exact Hq].
      cbn [server_step queued_cost]. rewrite Hs. cbn [ServerNode.QueueRequest ServerNode.sumCost].
      unfold U64.add, U64.wrap. rewrite Zplus_mod_idemp_l. f_equal. lia.
    + apply negb_true_iff, Z.eqb_neq in Hop.
      cbn [server_step queued_cost].
      assert (Hkeep : ServerNode.pending (ServerNode.GotReply now reqID bv s) !! id = Some sc
                      /\ ServerNode.sumCost (ServerNode.GotReply now reqID bv s)
                         = ServerNode.sumCost s
                      /\ ServerNode.params (ServerNode.GotReply now reqID bv s)
                         = ServerNode.params s).
      { unfold ServerNode.GotReply. cbv zeta.
        destruct (ServerNode.pending s !! reqID) as [sc' |]; [| repeat split; exact Hsc].
        cbn. rewrite lookup_delete_ne by exact Hop. repeat split. exact Hsc. }
      destruct Hkeep as (Kp & Ks & Kq).
      destruct (IH (ServerNode.GotReply now reqID bv s) sc) as (Hp & Hs & Hq);
        [exact Kp | rewrite Ks; exact Hsum | exact Hops |].
      rewrite Ks in Hs. rewrite Kq in Hq. repeat split; assumption.
Qed.

(** X5: the reply to a request accounts for exactly the requests queued
    after it. After [QueueRequest(id, c)] and any operations that neither
    queue nor answer [id], [GotReply(id, bv)] sets the estimate to the
    clamped [bv] minus the total (modulo [2^64]) of the costs queued in
    between, or to 0 if that total is not smaller. *)
Theorem reply_accounts_for_later_requests
    (peer : ServerNode.t) (id c now bv : Z) (ops : list server_op) :
  U64.in_range (BufLimit (ServerNode.params peer)) ->
  U64.in_range bv ->
  forallb (leaves_request id) ops = true ->
  let sent := server_run ops (ServerNode.QueueRequest id c peer) in
  ServerNode.bufEstimate (ServerNode.GotReply now id bv sent)
  = Z.max 0 (Z.min bv (BufLimit (ServerNode.params peer)) - U64.wrap (queued_cost ops)).
Proof.
  intros HL Hbv Hleave sent.
  set (sc := U64.add (ServerNode.sumCost peer) c).
  destruct (run_keeps_request id ops (ServerNode.QueueRequest id c peer) sc)
    as (Hp & Hs & Hq); [cbn; apply lookup_insert_eq | apply u64_wrap_range | exact Hleave |].
  fold sent in Hp, Hs, Hq.
  unfold ServerNode.GotReply. cbv zeta. rewrite Hp, Hs, Hq. cbn.
  rewrite clamp_min, Z.min_comm.
  assert (Ecc : U64.sub (U64.wrap (sc + queued_cost ops)) sc = U64.wrap (queued_cost ops)).
  { unfold U64.sub, U64.wrap. rewrite Zminus_mod_idemp_l. f_equal. lia. }
  change (U64.add (ServerNode.sumCost peer) c) with sc. rewrite Ecc.
  pose proof (u64_wrap_range (queued_cost ops)) as Hq'.
  set (cc := U64.wrap (queued_cost ops)) in *.
  set (limit := BufLimit (ServerNode.params peer)) in *.
  unfold U64.in_range in *.
  destruct (Z.gtb_spec (Z.min bv limit) cc) as [Hgt | Hle]; [| lia].
  rewrite u64_sub_exact by (unfold U64.in_range; lia). lia.
Qed.

Lemma reply_accounts_for_later_requests_witness :
  ServerNode.bufEstimate
    (ServerNode.GotReply (Scenario.ms 5) 1 700
       (server_run [OpQueueRequest 2 200]
          (ServerNode.QueueRequest 1 400 (NewServerNode Scenario.params (Scenario.ms 0)))))
  = 500.
Proof.
  rewrite (reply_accounts_for_later_requests
             (NewServerNode Scenario.params (Scenario.ms 0)) 1 400 (Scenario.ms 5) 700
             [OpQueueRequest 2 200]); by_evaluation.
Defined.

(** X6: a second reply to the same request is ignored: whatever it
    carries, it leaves the tracker as the first reply left it. *)
Theorem duplicate_reply_ignored (peer : ServerNode.t) (now1 now2 reqID bv1 bv2 : Z) :
  ServerNode.GotReply now2 reqID bv2 (ServerNode.GotReply now1 reqID bv1 peer)
  = ServerNode.GotReply now1 reqID bv1 peer.
Proof.
  assert (Hgone : ServerNode.pending (ServerNode.GotReply now1 reqID bv1 peer) !! reqID
                  = None).
  { unfold ServerNode.GotReply. cbv zeta.
    destruct (ServerNode.pending peer !! reqID) as [sc |] eqn:Hr; [| exact Hr].
    cbn. apply lookup_delete_eq. }
  revert Hgone. generalize (ServerNode.GotReply now1 reqID bv1 peer). intros s Hgone.
  unfold ServerNode.GotReply. cbv zeta. rewrite Hgone. reflexivity.
Qed.

(** ** A request that costs more than the buffer holds *)

(** X7: when [RequestProcessed] is charged a cost above the recharged
    buffer value (and of at most [2^64 - buf_limit]), the subtraction wraps
    around and the recharge that follows clamps the result: the client is
    left with a full buffer, [buf_limit], whatever the manager reports. *)
Theorem overdraft_refills (cm : ClientManager) (peer : ClientNode.t) (now cost : Z) :
  U64.in_range (BufLimit (ClientNode.params peer)) ->
  U64.in_range (fst (processed cm now)) ->
  ClientNode.bufValue (ClientNode.recalcBV now peer) < cost ->
  cost <= U64.modulus - BufLimit (ClientNode.params peer) ->
  let result := ClientNode.RequestProcessed cm now cost peer in
  ClientNode.bufValue (fst result) = BufLimit (ClientNode.params peer)
  /\ fst (snd result) = BufLimit (ClientNode.params peer).
Proof.
  intros HL Hrc Hover Hcost.
  set (limit := BufLimit (ClientNode.params peer)) in *.
  destruct (recalcBV_inv _ HL now peer eq_refl) as [_ Hb1].
  set (peer1 := ClientNode.recalcBV now peer) in *.
  set (debited := {| ClientNode.params := ClientNode.params peer1;
                     ClientNode.bufValue := U64.sub (ClientNode.bufValue peer1) cost;
                     ClientNode.lastTime := ClientNode.lastTime peer1 |}).
  assert (Hb2 : ClientNode.bufValue (ClientNode.recalcBV now debited) = limit).
  { rewrite recalcBV_same_time by reflexivity. cbn [debited ClientNode.params ClientNode.bufValue].
    change (ClientNode.params peer1) with (ClientNode.params peer). fold limit.
    rewrite u64_wrap_small by apply u64_wrap_range.
    assert (E : U64.sub (ClientNode.bufValue peer1) cost
                = U64.modulus + ClientNode.bufValue peer1 - cost).
    { unfold U64.sub, U64.wrap.
      replace (ClientNode.bufValue peer1 - cost)
        with (U64.modulus + ClientNode.bufValue peer1 - cost + (-1) * U64.modulus) by lia.
      rewrite Z.mod_add by discriminate.
      apply Z.mod_small. unfold U64.in_range in *. lia. }
    rewrite E. unfold U64.in_range in *. lia. }
  intros result. unfold result, ClientNode.RequestProcessed. cbv zeta.
  fold peer1. fold debited.
  set (peer2 := ClientNode.recalcBV now debited) in *.
  change (ClientNode.params peer2) with (ClientNode.params peer). fold limit.
  destruct (processed cm now) as [rcValue rcost]. cbn [fst] in Hrc.
  unfold U64.in_range in *.
  destruct (Z.ltb_spec rcValue limit) as [Hlt | Hge]; [| cbn; split; exact Hb2].
  rewrite (u64_sub_exact limit rcValue) by (unfold U64.in_range; lia).
  destruct (Z.gtb_spec (limit - rcValue) (ClientNode.bufValue peer2)) as [Hgt | Hle];
    [lia | cbn; split; exact Hb2].
Qed.

Lemma overdraft_refills_witness :
  ClientNode.bufValue Scenario.client_A = 700
  /\ snd (ClientNode.RequestProcessed Scenario.manager (Scenario.ms 0) 900 Scenario.client_A)
     = (1000, 300).
Proof.
  split; [reflexivity |].
  destruct (overdraft_refills Scenario.manager Scenario.client_A (Scenario.ms 0) 900)
    as [_ E]; [by_evaluation .. |].
  reflexivity.
Defined.

(** * The key/value list of the handshake *)

Section KeyValue.

Import keyValueList keyValueMap.

Context {V Target Outcome : Type}.
Variable uint64_0 : V.
Variable EncodeToBytes : V -> option RawValue.
Variable DecodeBytes : RawValue -> Target -> Outcome.

Lemma decode_snoc (l : list keyValueEntry) (e : keyValueEntry) :
  decode (l ++ [e]) = <[Key e := Value e]> (decode l).
Proof. unfold decode. rewrite fold_left_app. reflexivity. Qed.

(** X8: [decode] maps a key to the value of the last entry of the list
    that has this key (later entries override earlier ones), and to
    nothing when no entry has it. *)
Theorem decode_last_entry_wins (l : list keyValueEntry) (key : string) :
  decode l !! key = Value <$> last (filter (fun e => Key e = key) l).
Proof.
  induction l as [| e l IH] using rev_ind; [reflexivity |].
  rewrite decode_snoc, filter_app.
  destruct (decide (Key e = key)) as [Heq | Hne].
  - rewrite (filter_cons_True _ e []) by exact Heq.
    rewrite filter_nil, last_snoc, Heq. apply lookup_insert_eq.
  - rewrite (filter_cons_False _ e []) by exact Hne.
    rewrite filter_nil, app_nil_r, lookup_insert_ne by exact Hne. exact IH.
Qed.

Lemma decode_lookup_None (l : list keyValueEntry) (key : string) :
  decode l !! key = None <-> key ∉ (Key <$> l).
Proof.
  rewrite decode_last_entry_wins, fmap_None, last_None.
  rewrite list_elem_of_fmap. split.
  - intros Hnil (e & -> & He).
    assert (e ∈ filter (fun e' => Key e' = Key e) l) as Hin
        by (apply list_elem_of_filter; split; [reflexivity | exact He]).
    rewrite Hnil in Hin. inversion Hin.
  - intros Hnot.
    destruct (filter (fun e => Key e = key) l) as [| e rest] eqn:Hf; [reflexivity |].
    assert (e ∈ filter (fun e' => Key e' = key) l) as Hin by (rewrite Hf; left).
    apply list_elem_of_filter in Hin as [Hk He].
    exfalso. apply Hnot. exists e. split; [symmetry; exact Hk | exact He].
Qed.

(** X9: [get] reports a missing key exactly for the keys that no entry of
    the decoded list has, whatever the destination; with a nil destination
    it returns nil for every other key. *)
Theorem get_missing_key_iff (l : list keyValueEntry) (key : string) (val : option Target) :
  (get DecodeBytes (decode l) key val = MissingKey key <-> key ∉ (Key <$> l))
  /\ (get DecodeBytes (decode l) key None = Present <-> key ∈ (Key <$> l)).
Proof.
  pose proof (decode_lookup_None l key) as Hnone.
  unfold get. destruct (decode l !! key) as [enc |] eqn:Hk.
  - assert (Hin : key ∈ (Key <$> l)).
    { destruct (decide (key ∈ (Key <$> l))) as [Hin | Hout]; [exact Hin |].
      apply Hnone in Hout. discriminate. }
    split; split;
      first [ done | destruct val; discriminate | intros Hout; exfalso; exact (Hout Hin) ].
  - assert (Hout : key ∉ (Key <$> l)) by (apply Hnone; reflexivity).
    split; split; first [ done | intros Hin; exfalso; exact (Hout Hin) ].
Qed.

(** X10: what [add] appends is what [get] then finds under the key,
    whatever the list held before: the encoding of the value (of
    [uint64(0)] for a nil value, and no bytes when the encoder fails);
    the other keys are found as before. *)
Theorem add_then_get (l : list keyValueEntry) (key : string) (val : option V)
    (dst : Target) :
  let l' := add uint64_0 EncodeToBytes l key val in
  let v := match val with None => uint64_0 | Some v => v end in
  let enc := match EncodeToBytes v with Some enc => enc | None => [] end in
  get DecodeBytes (decode l') key None = Present
  /\ get DecodeBytes (decode l') key (Some dst) = Decoded (DecodeBytes enc dst)
  /\ (forall key' val', key' <> key ->
        get DecodeBytes (decode l') key' val' = get DecodeBytes (decode l) key' val').
Proof.
  intros l' v enc. unfold l', add. fold v. fold enc. rewrite decode_snoc. cbn [Key Value].
  unfold get. rewrite lookup_insert_eq. repeat split.
  intros key' val' Hne. rewrite lookup_insert_ne by congruence. reflexivity.
Qed.

End KeyValue.

(** * The cache of past tries *)

Section PastTries.

Import cachingDB.

Context {T H Err : Type} `{EqDecision H}.
Variable Hash : T -> H.
Variable Copy : T -> T.
Variable NewSecure : H -> Err + T.
Variable Commit : T -> Err + H.

(** On a full cache the shift and the assignment drop the oldest trie. *)
Lemma pushTrie_full (t : T) (l : list T) :
  (maxPastTries <= length l)%nat -> pushTrie t l = drop 1 l ++ [t].
Proof.
  intros Hfull. unfold pushTrie.
  destruct (Nat.leb_spec maxPastTries (length l)) as [_ | Hlt]; [| lia].
  destruct l as [| x l0]; [unfold maxPastTries in Hfull; cbn in Hfull; lia |].
  unfold copy. cbn [drop length]. rewrite drop_0.
  rewrite take_ge by lia.
  assert (Hd : length (drop (length l0) (x :: l0)) = 1%nat)
    by (rewrite length_drop; cbn [length]; lia).
  destruct (drop (length l0) (x :: l0)) as [| z [| z' d]]; try discriminate Hd.
  replace (S (length l0) - 1)%nat with (length l0) by lia.
  rewrite insert_app_r_alt by lia. rewrite Nat.sub_diag. reflexivity.
Qed.

Lemma pushTrie_keeps_newest (t : T) (l : list T) :
  (length l <= maxPastTries)%nat ->
  pushTrie t l = drop (length l + 1 - maxPastTries) (l ++ [t]).
Proof.
  intros Hlen. destruct (decide (length l = maxPastTries)) as [Heq | Hne].
  - rewrite pushTrie_full by lia. rewrite Heq.
    replace (maxPastTries + 1 - maxPastTries)%nat with 1%nat by lia.
    rewrite drop_app_le by (rewrite Heq; unfold maxPastTries; lia). reflexivity.
  - unfold pushTrie. destruct (Nat.leb_spec maxPastTries (length l)) as [Hge | _]; [lia |].
    replace (length l + 1 - maxPastTries)%nat with 0%nat by lia. reflexivity.
Qed.

Lemma pushes_drop (ts l : list T) :
  (length l <= maxPastTries)%nat ->
  pushes ts l = drop (length l + length ts - maxPastTries) (l ++ ts).
Proof.
  revert l. induction ts as [| t ts IH]; intros l Hlen.
  - cbn. rewrite Nat.add_0_r, app_nil_r.
    replace (length l - maxPastTries)%nat with 0%nat by lia. reflexivity.
  - change (pushes (t :: ts) l) with (pushes ts (pushTrie t l)).
    assert (Hpush : pushTrie t l = drop (length l + 1 - maxPastTries) (l ++ [t]))
      by (apply pushTrie_keeps_newest; exact Hlen).
    assert (Hlen' : (length (pushTrie t l) <= maxPastTries)%nat).
    { rewrite Hpush, length_drop, length_app. cbn. lia. }
    rewrite (IH _ Hlen'), Hpush.
    set (k := (length l + 1 - maxPastTries)%nat).
    assert (Hk : (k <= length (l ++ [t]))%nat) by (rewrite length_app; cbn; lia).
    rewrite <- (drop_app_le (l ++ [t]) ts k Hk), drop_drop, length_drop, length_app.
    rewrite <- app_assoc. cbn [app length]. f_equal. lia.
Qed.

(** X11: the cache is a queue of at most [maxPastTries] tries: after any
    number of pushes it holds the last twelve tries of what it held and
    what was pushed, in the order of the pushes. *)
Theorem pastTries_are_the_last_pushed (ts l : list T) :
  (length l <= maxPastTries)%nat ->
  pushes ts l = drop (length l + length ts - maxPastTries) (l ++ ts)
  /\ (length (pushes ts l) <= maxPastTries)%nat.
Proof.
  intros Hlen. split; [apply pushes_drop; exact Hlen |].
  rewrite pushes_drop by exact Hlen. rewrite length_drop, length_app. lia.
Qed.

(** The loop of [OpenTrie] finds the last trie with the root, if any. *)
Lemma search_last (l : list T) (root : H) (i : nat) :
  (i <= length l)%nat ->
  search Hash l root i = last (filter (fun t => Hash t = root) (take i l)).
Proof.
  induction i as [| i IH]; intros Hi; [rewrite take_0; reflexivity |].
  destruct (lookup_lt_is_Some_2 l i ltac:(lia)) as [t Ht].
  cbn [search]. rewrite Ht, (take_S_r l i t Ht), filter_app.
  destruct (decide (Hash t = root)) as [Heq | Hne].
  - rewrite (filter_cons_True _ t []) by exact Heq. rewrite filter_nil, last_snoc. reflexivity.
  - rewrite (filter_cons_False _ t []) by exact Hne.
    rewrite filter_nil, app_nil_r. apply IH. lia.
Qed.

(** X12: [OpenTrie] returns a copy of the most recently pushed trie among
    the cached tries with the requested root, and asks [trie.NewSecure]
    only when no cached trie has this root. *)
Theorem OpenTrie_most_recent (root : H) (l : list T) :
  OpenTrie Hash Copy NewSecure root l
  = match last (filter (fun t => Hash t = root) l) with
    | Some t => inr (Copy t)
    | None => NewSecure root
    end.
Proof.
  unfold OpenTrie. rewrite search_last by lia. rewrite take_ge by lia. reflexivity.
Qed.

Lemma search_all (root : H) (l : list T) :
  search Hash l root (length l) = last (filter (fun t => Hash t = root) l).
Proof. rewrite search_last by lia. rewrite take_ge by lia. reflexivity. Qed.

Lemma filter_no_root (root : H) (ts : list T) :
  (forall t, t ∈ ts -> Hash t <> root) -> filter (fun t => Hash t = root) ts = [].
Proof.
  intros Hno. induction ts as [| t ts IH]; [reflexivity |].
  rewrite filter_cons_False by (apply Hno; left).
  apply IH. intros t' Ht'. apply Hno. right. exact Ht'.
Qed.

Lemma pushTrie_snoc (t : T) (l : list T) : exists l', pushTrie t l = l' ++ [t].
Proof.
  destruct (le_lt_dec maxPastTries (length l)) as [Hfull | Hroom].
  - exists (drop 1 l). apply pushTrie_full. exact Hfull.
  - exists l. unfold pushTrie.
    destruct (Nat.leb_spec maxPastTries (length l)) as [Hge | _]; [lia | reflexivity].
Qed.

(** X13: a trie whose commit succeeds is served from the cache: as long as
    its hash is the root that the commit returned, the next [OpenTrie] of
    this root returns a copy of it, without asking [trie.NewSecure]. A
    commit that fails leaves the cache as it was. *)
Theorem committed_trie_is_cached (m : T) (l : list T) :
  (forall root, Commit m = inr root -> Hash m = root ->
     snd (cachedTrie_Commit Commit m l) = inr root
     /\ OpenTrie Hash Copy NewSecure root (fst (cachedTrie_Commit Commit m l))
        = inr (Copy m))
  /\ (forall err, Commit m = inl err -> cachedTrie_Commit Commit m l = (l, inl err)).
Proof.
  unfold cachedTrie_Commit. split.
  - intros root Hc Hroot. rewrite Hc. cbn [fst snd]. split; [reflexivity |].
    destruct (pushTrie_snoc m l) as [l' E]. rewrite E.
    unfold OpenTrie. rewrite search_all, filter_app.
    rewrite (filter_cons_True _ m []) by exact Hroot.
    rewrite filter_nil, last_snoc. reflexivity.
  - intros err Hc. rewrite Hc. reflexivity.
Qed.

(** X14: a pushed trie is served from the cache during the next eleven
    pushes and no longer: after fewer than twelve pushes of tries with
    other roots [OpenTrie] still returns a copy of it, after twelve or more
    it falls back on [trie.NewSecure]. *)
Theorem pushed_trie_retention (t : T) (root : H) (ts l : list T) :
  (length l <= maxPastTries)%nat ->
  Hash t = root ->
  (forall t', t' ∈ ts -> Hash t' <> root) ->
  let cache := pushes ts (pushTrie t l) in
  ((length ts < maxPastTries)%nat ->
   OpenTrie Hash Copy NewSecure root cache = inr (Copy t))
  /\ ((maxPastTries <= length ts)%nat ->
      OpenTrie Hash Copy NewSecure root cache = NewSecure root).
Proof.
  intros Hlen Ht Hno cache.
  assert (E : cache = drop (length l + S (length ts) - maxPastTries) (l ++ t :: ts))
    by (apply (pushes_drop (t :: ts) l Hlen)).
  unfold OpenTrie. rewrite search_all, E. split.
  - intros Hfew.
    rewrite drop_app_le by lia.
    change (t :: ts) with ([t] ++ ts). rewrite !filter_app, (filter_no_root root ts Hno).
    rewrite app_nil_r, (filter_cons_True _ t []) by exact Ht.
    rewrite filter_nil, last_snoc. reflexivity.
  - intros Hmany.
    rewrite drop_app_ge by lia.
    rewrite filter_no_root; [reflexivity |].
    intros t' Ht'. apply Hno.
    assert (Hpos : (0 < length l + S (length ts) - maxPastTries - length l)%nat) by lia.
    destruct (length l + S (length ts) - maxPastTries - length l)%nat as [| n]; [lia |].
    cbn [drop] in Ht'. exact (subseteq_drop n ts t' Ht').
Qed.

End PastTries.

(** * The set of peers *)

Section PeerSet.

Import peerSet peerSetRun.

Context {P N : Type}.
Variable id : P -> string.
Variable Td : P -> Z.

Implicit Types (ps : @peerSet.t P N) (p : P) (n : N).

Lemma Register_fresh ps p :
  closed ps = false -> peers ps !! id p = None ->
  Register id p ps
  = ({| peers := <[id p := p]> (peers ps); notifyList := notifyList ps;
        closed := closed ps |},
     None,
     newExecQueue p :: ((fun n => registerPeer n p) <$> notifyList ps)).
Proof. intros Hopen Hfresh. unfold Register. rewrite Hopen, Hfresh. reflexivity. Qed.

(** X15: registering a new peer on an open set and unregistering its id
    again gives back the set as it was; in between the peer is found under
    its id and the set is one larger. Both calls return nil, and every
    subscriber hears of the registration and of the removal. *)
Theorem Register_then_Unregister ps p :
  closed ps = false -> peers ps !! id p = None ->
  let r1 := Register id p ps in
  let ps1 := fst (fst r1) in
  let r2 := Unregister (id p) ps1 in
  snd (fst r1) = None
  /\ Peer (id p) ps1 = Some p
  /\ Len ps1 = Len ps + 1
  /\ r2 = (ps, None,
           ((fun n => unregisterPeer n p) <$> notifyList ps)
           ++ [sendQueue_quit p; Disconnect p DiscUselessPeer])
  /\ (forall n, n ∈ notifyList ps -> registerPeer n p ∈ snd r1).
Proof.
  intros Hopen Hfresh r1 ps1 r2.
  unfold r2, ps1, r1. rewrite (Register_fresh ps p Hopen Hfresh). cbn [fst snd].
  split; [reflexivity |]. split; [apply lookup_insert_eq |].
  split; [unfold Len; cbn; rewrite map_size_insert_None by exact Hfresh; lia |].
  split.
  - unfold Unregister. cbn [peers notifyList closed]. rewrite lookup_insert_eq.
    rewrite delete_insert_eq, delete_id by exact Hfresh.
    destruct ps; reflexivity.
  - intros n Hn. right. apply list_elem_of_fmap. exists n. split; [reflexivity | exact Hn].
Qed.


Lemma enumerates_elem_of (visit : list (string * P)) ps (key : string) p :
  enumerates visit ps -> ((key, p) ∈ visit <-> peers ps !! key = Some p).
Proof.
  unfold enumerates. intros Hperm. rewrite Hperm. apply elem_of_map_to_list.
Qed.

(** X17: [Close] disconnects every registered peer and no one else, and
    keeps the peers in the set: they are still found and can still be
    unregistered. After it every [Register] fails with [errClosed], also
    for an id that is taken, and changes nothing. *)
Theorem Close_then_Register (visit : list (string * P)) ps p :
  enumerates visit ps ->
  let ps' := fst (Close visit ps) in
  Register id p ps' = (ps', Some errClosed, [])
  /\ (forall key, Peer key ps' = Peer key ps)
  /\ (forall key, snd (fst (Unregister key ps')) = None <-> is_Some (Peer key ps))
  /\ (forall q reason,
        Disconnect q reason ∈ snd (Close visit ps)
        <-> reason = DiscQuitting /\ exists key, Peer key ps = Some q)
  /\ length (snd (Close visit ps)) = size (peers ps).
Proof.
  intros Hvisit ps'. unfold ps', Close. cbn [fst snd].
  split; [reflexivity |]. split; [reflexivity |]. split; [| split].
  - intros key. unfold Unregister, Peer. cbn [peers].
    destruct (peers ps !! key) as [q |]; cbn [fst snd].
    + split; [eauto | reflexivity].
    + split; [discriminate | intros [q Hq]; discriminate].
  - intros q reason. rewrite list_elem_of_fmap. split.
    + intros ([key q'] & Heq & Hin). injection Heq as -> ->. split; [reflexivity |].
      exists key. apply (enumerates_elem_of visit ps key q' Hvisit). exact Hin.
    + intros (-> & key & Hq). exists (key, q). split; [reflexivity |].
      apply (enumerates_elem_of visit ps key q Hvisit). exact Hq.
  - rewrite length_fmap. unfold enumerates in Hvisit. rewrite Hvisit.
    apply length_map_to_list.
Qed.

(** What the loop of [BestPeer] holds after the entries [seen]. *)
Lemma BestPeer_loop (visit seen : list (string * P)) (best : option (P * Z)) :
  match best with
  | None => seen = []
  | Some (b, td) =>
      td = Td b /\ b ∈ (snd <$> seen) /\ forall q, q ∈ (snd <$> seen) -> Td q <= td
  end ->
  match fold_left (BestPeer_step Td) visit best with
  | None => seen ++ visit = []
  | Some (b, td) =>
      td = Td b /\ b ∈ (snd <$> (seen ++ visit))
      /\ forall q, q ∈ (snd <$> (seen ++ visit)) -> Td q <= td
  end.
Proof.
  revert seen best. induction visit as [| kp visit IH]; intros seen best Hinv.
  - cbn [fold_left]. rewrite app_nil_r. exact Hinv.
  - cbn [fold_left]. replace (seen ++ kp :: visit) with ((seen ++ [kp]) ++ visit)
      by (rewrite <- app_assoc; reflexivity).
    apply IH. unfold BestPeer_step.
    destruct best as [[b td] |].
    + destruct Hinv as (Htd & Hb & Hmax).
      destruct (Z.gtb_spec (Td (snd kp)) td) as [Hgt | Hle].
      * split; [reflexivity |]. rewrite fmap_app. split.
        -- apply elem_of_app. right. cbn. left.
        -- intros q Hq. apply elem_of_app in Hq as [Hq | Hq].
           ++ specialize (Hmax q Hq). lia.
           ++ cbn in Hq. apply list_elem_of_singleton in Hq. subst q. lia.
      * split; [exact Htd |]. rewrite fmap_app. split.
        -- apply elem_of_app. left. exact Hb.
        -- intros q Hq. apply elem_of_app in Hq as [Hq | Hq].
           ++ apply Hmax, Hq.
           ++ cbn in Hq. apply list_elem_of_singleton in Hq. subst q. exact Hle.
    + subst seen. cbn. split; [reflexivity |]. split; [left |].
      intros q Hq. apply list_elem_of_singleton in Hq. subst q. lia.
Qed.

(** X18: [BestPeer] returns nil exactly on an empty set; otherwise it
    returns a registered peer whose total difficulty no registered peer
    exceeds, in whatever order the map is visited. *)
Theorem BestPeer_is_best (visit : list (string * P)) ps :
  enumerates visit ps ->
  match BestPeer Td visit ps with
  | None => peers ps = ∅
  | Some b =>
      (exists key, Peer key ps = Some b)
      /\ forall key q, Peer key ps = Some q -> Td q <= Td b
  end.
Proof.
  intros Hvisit. unfold BestPeer.
  pose proof (BestPeer_loop visit [] None eq_refl) as Hloop. cbn [app] in Hloop.
  destruct (fold_left (BestPeer_step Td) visit None) as [[b td] |]; cbn [fmap option_fmap option_map fst].
  - destruct Hloop as (Htd & Hb & Hmax). split.
    + apply list_elem_of_fmap in Hb as ([key b'] & Heq & Hin). cbn in Heq. subst b'.
      exists key. apply (enumerates_elem_of visit ps key b Hvisit). exact Hin.
    + intros key q Hq. rewrite <- Htd. apply Hmax.
      apply list_elem_of_fmap. exists (key, q). split; [reflexivity |].
      apply (enumerates_elem_of visit ps key q Hvisit). exact Hq.
  - subst visit. unfold enumerates in Hvisit.
    apply Permutation_nil_l in Hvisit. apply map_to_list_empty_iff. symmetry. exact Hvisit.
Qed.

(** X19: [AllPeerIDs] lists every registered id exactly once and nothing
    else, so its length is [Len]; [AllPeers] lists the peers found under
    these ids. *)
Theorem AllPeerIDs_lists_the_ids (visit : list (string * P)) ps :
  enumerates visit ps ->
  NoDup (AllPeerIDs visit ps)
  /\ (forall key, key ∈ AllPeerIDs visit ps <-> is_Some (Peer key ps))
  /\ Z.of_nat (length (AllPeerIDs visit ps)) = Len ps
  /\ (forall q, q ∈ AllPeers visit ps <-> exists key, Peer key ps = Some q)
  /\ length (AllPeers visit ps) = length (AllPeerIDs visit ps).
Proof.
  intros Hvisit. unfold AllPeerIDs, AllPeers, Len, Peer.
  assert (Hperm : visit ≡ₚ map_to_list (peers ps)) by exact Hvisit.
  split; [rewrite Hperm; apply NoDup_fst_map_to_list |].
  split; [| split; [| split]].
  - intros key. rewrite list_elem_of_fmap. split.
    + intros ([key' q] & Heq & Hin). cbn in Heq. subst key'. exists q.
      apply (enumerates_elem_of visit ps key q Hvisit). exact Hin.
    + intros [q Hq]. exists (key, q). split; [reflexivity |].
      apply (enumerates_elem_of visit ps key q Hvisit). exact Hq.
  - rewrite length_fmap, Hperm, length_map_to_list. reflexivity.
  - intros q. rewrite list_elem_of_fmap. split.
    + intros ([key q'] & Heq & Hin). cbn in Heq. subst q'. exists key.
      apply (enumerates_elem_of visit ps key q Hvisit). exact Hin.
    + intros [key Hq]. exists (key, q). split; [reflexivity |].
      apply (enumerates_elem_of visit ps key q Hvisit). exact Hq.
  - rewrite !length_fmap. reflexivity.
Qed.

Lemma step_well_keyed ps (o : op) :
  well_keyed id ps -> well_keyed id (step id ps o).
Proof.
  intros Hwk. destruct o as [visit n | p | key | visit]; cbn [step].
  - exact Hwk.
  - unfold Register. destruct (closed ps); [exact Hwk |].
    destruct (peers ps !! id p) as [q |] eqn:Hq; [exact Hwk |]. cbn [fst].
    intros key q'. cbn [peers]. rewrite lookup_insert.
    destruct (decide (id p = key)) as [Heq | Hne].
    + intros [= <-]. exact Heq.
    + apply Hwk.
  - unfold Unregister. destruct (peers ps !! key) as [q |] eqn:Hq; [| exact Hwk].
    cbn [fst]. intros key' q'. cbn [peers]. rewrite lookup_delete.
    destruct (decide (key = key')); [discriminate | apply Hwk].
  - exact Hwk.
Qed.

Lemma run_well_keyed (ops : list (@op P N)) :
  forall ps, well_keyed id ps -> well_keyed id (run id ops ps).
Proof.
  induction ops as [| o ops IH]; intros ps Hwk; [exact Hwk |].
  cbn [run fold_left]. apply IH, step_well_keyed, Hwk.
Qed.

(** X20: in every set that operations build from the empty set, a peer is
    stored under its own id: whoever is found under a key has this key as
    its id, so [Unregister(p.id)] removes [p] and no other peer. *)
Theorem peers_are_keyed_by_id (ops : list (@op P N)) (key : string) p :
  let ps := run id ops newPeerSet in
  Peer key ps = Some p ->
  id p = key
  /\ Peer (id p) (fst (fst (Unregister (id p) ps))) = None
  /\ (forall key' : string, key' <> id p ->
        Peer key' (fst (fst (Unregister (id p) ps))) = Peer key' ps).
Proof.
  intros ps Hfound.
  assert (Hwk : well_keyed id ps).
  { apply run_well_keyed. intros k q. cbn. rewrite lookup_empty. discriminate. }
  assert (Hid : id p = key) by (apply Hwk; exact Hfound).
  split; [exact Hid |].
  unfold Peer in *. unfold Unregister. rewrite Hid, Hfound. cbn [fst peers].
  split; [apply lookup_delete_eq |].
  intros key' Hne. apply lookup_delete_ne. congruence.
Qed.

(** X21: a subscriber added by [notify] is told of every peer registered
    at that time, once each and of no other, and is told of every peer
    registered later. *)
Theorem notify_reaches_subscriber (visit : list (string * P)) ps n p :
  enumerates visit ps ->
  let r := notify visit n ps in
  (forall q, registerPeer n q ∈ snd r <-> exists key, Peer key ps = Some q)
  /\ length (snd r) = size (peers ps)
  /\ (closed ps = false -> Peer (id p) ps = None ->
      registerPeer n p ∈ snd (Register id p (fst r))).
Proof.
  intros Hvisit r. unfold r, notify. cbn [fst snd]. split; [| split].
  - intros q. rewrite list_elem_of_fmap. split.
    + intros ([key q'] & Heq & Hin). injection Heq as ->. exists key.
      apply (enumerates_elem_of visit ps key q' Hvisit). exact Hin.
    + intros [key Hq]. exists (key, q). split; [reflexivity |].
      apply (enumerates_elem_of visit ps key q Hvisit). exact Hq.
  - rewrite length_fmap. unfold enumerates in Hvisit. rewrite Hvisit.
    apply length_map_to_list.
  - intros Hopen Hfresh. unfold Register. cbn [closed peers notifyList].
    unfold Peer in Hfresh. rewrite Hopen, Hfresh. cbn [snd].
    right. apply list_elem_of_fmap. exists n. split; [reflexivity |].
    apply elem_of_app. right. left.
Qed.

End PeerSet.

(** * Capabilities *)

Section Caps.

Import p2p p2p.capsByNameAndVersion.

Lemma string_compare_refl (s : string) : String.compare s s = Eq.
Proof.
  pose proof (String.compare_antisym s s) as H.
  destruct (String.compare s s); [reflexivity | discriminate | discriminate].
Qed.

Lemma string_ltb_irrefl (s : string) : String.ltb s s = false.
Proof. unfold String.ltb. rewrite string_compare_refl. reflexivity. Qed.

Lemma string_ltb_lt (a b : string) : String.ltb a b = true <-> String.compare a b = Lt.
Proof. unfold String.ltb. destruct (String.compare a b); split; congruence. Qed.

Lemma string_compare_lt_trans (a b c : string) :
  String.compare a b = Lt -> String.compare b c = Lt -> String.compare a c = Lt.
Proof.
  intros Hab Hbc.
  assert (Hle : String.le a c).
  { transitivity b; unfold String.le, String.leb; [rewrite Hab | rewrite Hbc]; exact I. }
  unfold String.le, String.leb in Hle.
  destruct (String.compare a c) eqn:Hac; [| reflexivity | contradiction].
  apply String.compare_eq_iff in Hac. subst c.
  rewrite String.compare_antisym, Hab in Hbc. discriminate.
Qed.

Lemma string_compare_gt (a b : string) : String.compare a b = Gt -> String.compare b a = Lt.
Proof. intros H. rewrite String.compare_antisym, H. reflexivity. Qed.

Lemma Less_index (cs : list Cap) (i j : Z) (a b : Cap) :
  index cs i = Some a -> index cs j = Some b -> Less cs i j = Some (less a b).
Proof. intros Hi Hj. unfold Less. rewrite Hi, Hj. reflexivity. Qed.

Lemma Less_Some (cs : list Cap) (i j : Z) (r : bool) :
  Less cs i j = Some r ->
  exists a b, index cs i = Some a /\ index cs j = Some b /\ r = less a b.
Proof.
  unfold Less. destruct (index cs i) as [a |]; [| discriminate].
  destruct (index cs j) as [b |]; [| discriminate].
  intros [= <-]. exists a, b. repeat split.
Qed.

Lemma less_spec (a b : Cap) :
  less a b = true
  <-> String.compare (Name a) (Name b) = Lt
      \/ (Name a = Name b /\ Version a < Version b).
Proof.
  unfold less. rewrite orb_true_iff, andb_true_iff, string_ltb_lt, String.eqb_eq, Z.ltb_lt.
  reflexivity.
Qed.

Lemma less_irrefl (a : Cap) : less a a = false.
Proof.
  apply not_true_is_false. rewrite less_spec, string_compare_refl.
  intros [H | [_ H]]; [discriminate | lia].
Qed.

Lemma less_trans (a b c : Cap) : less a b = true -> less b c = true -> less a c = true.
Proof.
  rewrite !less_spec. intros [Hab | [Eab Hab]] [Hbc | [Ebc Hbc]].
  - left. eapply string_compare_lt_trans; eassumption.
  - left. rewrite <- Ebc. exact Hab.
  - left. rewrite Eab. exact Hbc.
  - right. split; [congruence | lia].
Qed.

Lemma less_total (a b : Cap) : a = b \/ less a b = true \/ less b a = true.
Proof.
  rewrite !less_spec.
  destruct (String.compare (Name a) (Name b)) eqn:Hc.
  - apply String.compare_eq_iff in Hc.
    destruct (Z.lt_trichotomy (Version a) (Version b)) as [Hlt | [Heq | Hgt]].
    + right. left. right. split; assumption.
    + left. destruct a, b. cbn in *. congruence.
    + right. right. right. split; [symmetry; exact Hc | lia].
  - right. left. left. reflexivity.
  - right. right. left. apply string_compare_gt. exact Hc.
Qed.

(** X22: [Less] is the strict order that sorting needs: on valid indices
    no capability is less than itself, the comparison is transitive, and
    of two different capabilities exactly one is less than the other
    (names are compared first, as byte strings, then versions). *)
Theorem Less_is_a_strict_total_order (cs : list Cap) (i j k : Z) :
  (is_Some (index cs i) -> Less cs i i = Some false)
  /\ (Less cs i j = Some true -> Less cs j k = Some true -> Less cs i k = Some true)
  /\ (forall a b, index cs i = Some a -> index cs j = Some b ->
        (a = b /\ Less cs i j = Some false /\ Less cs j i = Some false)
        \/ (a <> b /\ Less cs i j = Some true /\ Less cs j i = Some false)
        \/ (a <> b /\ Less cs i j = Some false /\ Less cs j i = Some true)).
Proof.
  split; [| split].
  - intros [a Ha]. rewrite (Less_index cs i i a a Ha Ha), less_irrefl. reflexivity.
  - intros Hij Hjk.
    apply Less_Some in Hij as (a & b & Ha & Hb & Hab).
    apply Less_Some in Hjk as (b' & c & Hb' & Hc & Hbc).
    assert (b' = b) by congruence. subst b'.
    rewrite (Less_index cs i k a c Ha Hc). f_equal.
    apply less_trans with b; symmetry; assumption.
  - intros a b Ha Hb.
    rewrite (Less_index cs i j a b Ha Hb), (Less_index cs j i b a Hb Ha).
    destruct (less a b) eqn:Hab, (less b a) eqn:Hba.
    + exfalso. pose proof (less_trans a b a Hab Hba) as H. rewrite less_irrefl in H.
      discriminate.
    + right. left. repeat split. intros ->. rewrite less_irrefl in Hab. discriminate.
    + right. right. repeat split. intros ->. rewrite less_irrefl in Hba. discriminate.
    + left. destruct (less_total a b) as [E | [H | H]]; [| congruence | congruence].
      repeat split. exact E.
Qed.

Lemma index_is_Some (cs : list Cap) (i : Z) :
  is_Some (index cs i) <-> 0 <= i < Len cs.
Proof.
  unfold index, Len. destruct (Z.ltb_spec i 0) as [Hneg | Hpos].
  - split; [intros [a Ha]; discriminate | lia].
  - rewrite lookup_lt_is_Some. lia.
Qed.

Lemma swap_lookup (cs : list Cap) (ni nj k : nat) (ci cj : Cap) :
  cs !! ni = Some ci -> cs !! nj = Some cj ->
  <[nj := ci]> (<[ni := cj]> cs) !! k
  = if decide (k = nj) then Some ci else if decide (k = ni) then Some cj else cs !! k.
Proof.
  intros Hi Hj.
  pose proof (lookup_lt_Some _ _ _ Hi) as Li. pose proof (lookup_lt_Some _ _ _ Hj) as Lj.
  rewrite !list_lookup_insert, length_insert.
  repeat case_decide; try reflexivity; lia.
Qed.

(** X23: [Swap] exchanges the capabilities at two valid indices and keeps
    all others and the length, so that swapping twice gives the slice
    back; it panics exactly when an index is negative or not below [Len]. *)
Theorem Swap_exchanges (cs : list Cap) (i j : Z) :
  (Swap cs i j = None <-> ~ (0 <= i < Len cs /\ 0 <= j < Len cs))
  /\ (forall cs', Swap cs i j = Some cs' ->
        index cs' i = index cs j
        /\ index cs' j = index cs i
        /\ (forall k, k <> i -> k <> j -> index cs' k = index cs k)
        /\ Len cs' = Len cs
        /\ Swap cs' i j = Some cs).
Proof.
  pose proof (index_is_Some cs i) as Hi. pose proof (index_is_Some cs j) as Hj.
  unfold Swap. destruct (index cs j) as [cj |] eqn:Ej; [destruct (index cs i) as [ci |] eqn:Ei |].
  - assert (Hi0 : 0 <= i < Len cs) by (apply Hi; eauto).
    assert (Hj0 : 0 <= j < Len cs) by (apply Hj; eauto).
    split; [split; [discriminate | intros Hno; exfalso; apply Hno; split; assumption] |].
    intros cs' [= <-].
    assert (Li : cs !! Z.to_nat i = Some ci).
    { unfold index in Ei. destruct (Z.ltb_spec i 0); [lia | exact Ei]. }
    assert (Lj : cs !! Z.to_nat j = Some cj).
    { unfold index in Ej. destruct (Z.ltb_spec j 0); [lia | exact Ej]. }
    set (cs' := <[Z.to_nat j := ci]> (<[Z.to_nat i := cj]> cs)).
    assert (Hlook : forall k, 0 <= k ->
              index cs' k = if decide (k = j) then Some ci
                            else if decide (k = i) then Some cj else index cs k).
    { intros k Hk. unfold index. destruct (Z.ltb_spec k 0) as [? | _]; [lia |].
      unfold cs'. rewrite (swap_lookup cs _ _ _ ci cj Li Lj).
      repeat case_decide; try reflexivity; lia. }
    assert (Hneg : forall (l : list Cap) k, k < 0 -> index l k = None).
    { intros l k Hk. unfold index. destruct (Z.ltb_spec k 0); [reflexivity | lia]. }
    assert (Ei' : index cs' i = Some cj).
    { rewrite Hlook by lia. repeat case_decide; congruence. }
    assert (Ej' : index cs' j = Some ci).
    { rewrite Hlook by lia. repeat case_decide; congruence. }
    split; [congruence |]. split; [congruence |]. split; [| split].
    + intros k Hki Hkj. destruct (Z.lt_ge_cases k 0) as [Hk | Hk].
      * rewrite !Hneg by exact Hk. reflexivity.
      * rewrite Hlook by exact Hk. repeat case_decide; congruence.
    + unfold Len, cs'. rewrite !length_insert. reflexivity.
    + rewrite Ej', Ei'. f_equal. apply list_eq. intros k.
      assert (Li' : cs' !! Z.to_nat i = Some cj).
      { unfold index in Ei'. destruct (Z.ltb_spec i 0); [lia | exact Ei']. }
      assert (Lj' : cs' !! Z.to_nat j = Some ci).
      { unfold index in Ej'. destruct (Z.ltb_spec j 0); [lia | exact Ej']. }
      rewrite (swap_lookup cs' _ _ _ cj ci Li' Lj').
      unfold cs'. rewrite (swap_lookup cs _ _ _ ci cj Li Lj).
      repeat case_decide; subst; congruence.
  - split; [split; [intros _ | reflexivity] | discriminate].
    intros [Hi0 _]. apply Hi in Hi0 as [a Ha]. discriminate.
  - split; [split; [intros _ | reflexivity] | discriminate].
    intros [_ Hj0]. apply Hj in Hj0 as [a Ha]. discriminate.
Qed.

Lemma pretty_N_char_no_slash (d : N) : pretty_N_char d <> "/"%char.
Proof. unfold pretty_N_char. repeat case_match; discriminate. Qed.

Lemma pretty_N_go_slash_free (x : N) :
  forall s, slash_free s -> slash_free (pretty_N_go x s).
Proof.
  induction (N.lt_wf_0 x) as [x _ IH]. intros s Hs.
  destruct (decide (x = 0)%N) as [-> | Hpos]; [rewrite pretty_N_go_0; exact Hs |].
  rewrite pretty_N_go_step by lia. apply IH.
  - apply N.div_lt; lia.
  - split; [apply pretty_N_char_no_slash | exact Hs].
Qed.

Lemma pretty_N_slash_free (x : N) : slash_free (pretty x).
Proof.
  unfold pretty, pretty_N. case_decide.
  - cbn. split; [discriminate | exact I].
  - apply pretty_N_go_slash_free. exact I.
Qed.

Lemma slash_free_app (s t : string) :
  slash_free (s +:+ t) -> slash_free s /\ slash_free t.
Proof.
  induction s as [| c s IH].
  - change ("" +:+ t) with t. intros Ht. split; [exact I | exact Ht].
  - change (String c s +:+ t) with (String c (s +:+ t)). intros [Hc Hst].
    destruct (IH Hst) as [Hs Ht]. repeat split; assumption.
Qed.

Lemma slash_in_the_middle (s d : string) : ~ slash_free (s +:+ "/" +:+ d).
Proof.
  intros H. apply slash_free_app in H as [_ H]. apply slash_free_app in H as [H _].
  destruct H as [H _]. congruence.
Qed.

(** The last ["/"] of a string splits it in one way only. *)
Lemma split_at_last_slash (s1 s2 d1 d2 : string) :
  slash_free d1 -> slash_free d2 ->
  s1 +:+ "/" +:+ d1 = s2 +:+ "/" +:+ d2 -> s1 = s2 /\ d1 = d2.
Proof.
  intros H1 H2. revert s2. induction s1 as [| c s1 IH]; intros [| c' s2] E.
  - injection E as E. split; [reflexivity | exact E].
  - exfalso. injection E as Ec E. change ("" +:+ d1) with d1 in E. subst d1.
    exact (slash_in_the_middle s2 d2 H1).
  - exfalso. injection E as Ec E. change ("" +:+ d2) with d2 in E. subst d2.
    exact (slash_in_the_middle s1 d1 H2).
  - injection E as Ec E. destruct (IH s2 E) as [Es Ed]. split; congruence.
Qed.

(** X24: [String] tells capabilities apart: two capabilities that print
    alike have the same name and the same version, also when a name
    contains ["/"] or digits. *)
Theorem Cap_String_inj (a b : Cap) :
  0 <= Version a -> 0 <= Version b ->
  Cap_String a = Cap_String b -> a = b.
Proof.
  intros Ha Hb E. unfold Cap_String in E.
  apply split_at_last_slash in E as [En Ev]; try apply pretty_N_slash_free.
  apply (inj pretty) in Ev. apply Z2N.inj in Ev; try assumption.
  destruct a, b. cbn in *. congruence.
Qed.

Lemma Cap_String_inj_witness :
  Cap_String {| Name := "les"; Version := 2 |} = "les/2"
  /\ {| Name := "les"; Version := 2 |} = {| Name := "les"; Version := 1 + 1 |}.
Proof.
  split; [reflexivity |].
  apply (Cap_String_inj {| Name := "les"; Version := 2 |}
           {| Name := "les"; Version := 1 + 1 |}); [cbn; lia | cbn; lia | reflexivity].
Defined.

End Caps.

(** * The theorems above on the samples *)

Ltac sample_visit := unfold peerSet.enumerates, Samples.visit_two; reflexivity.

Lemma pastTries_are_the_last_pushed_witness :
  cachingDB.pushes (seq 10 12) [1; 2; 3]%nat = seq 10 12
  /\ (length (cachingDB.pushes (seq 10 12) [1; 2; 3]%nat) <= cachingDB.maxPastTries)%nat.
Proof.
  destruct (pastTries_are_the_last_pushed (seq 10 12) [1; 2; 3]%nat) as [E Hlen];
    [unfold cachingDB.maxPastTries; cbn; lia |].
  split; [rewrite E; reflexivity | exact Hlen].
Defined.

Lemma pushed_trie_retention_witness :
  cachingDB.OpenTrie Samples.Hash Samples.Copy Samples.NewSecure 1%nat
    (cachingDB.pushes (seq 200 11) (cachingDB.pushTrie 100%nat [1; 2; 3]%nat))
  = inr 100%nat.
Proof.
  apply (proj1 (pushed_trie_retention Samples.Hash Samples.Copy Samples.NewSecure
                  100%nat 1%nat (seq 200 11) [1; 2; 3]%nat
                  ltac:(unfold cachingDB.maxPastTries; cbn; lia) eq_refl
                  ltac:(intros t' Ht' Hh; cbn [seq] in Ht';
                        repeat (apply elem_of_cons in Ht' as [-> | Ht'];
                                [vm_compute in Hh; discriminate |]);
                        inversion Ht'))).
  unfold cachingDB.maxPastTries. cbn. lia.
Defined.

Lemma Register_then_Unregister_witness :
  peerSet.Peer "c" (fst (fst (peerSet.Register Samples.id "c" Samples.two_peers)))
  = Some "c"%string
  /\ fst (fst (peerSet.Unregister (Samples.id "c")
                 (fst (fst (peerSet.Register Samples.id "c" Samples.two_peers)))))
     = Samples.two_peers.
Proof.
  destruct (Register_then_Unregister Samples.id Samples.two_peers "c")
    as (_ & Hfound & _ & Hback & _); [reflexivity | reflexivity |].
  split; [exact Hfound |]. cbv zeta in Hback. rewrite Hback. reflexivity.
Defined.


Lemma Close_then_Register_witness :
  snd (fst (peerSet.Register Samples.id "c"
              (fst (peerSet.Close Samples.visit_two Samples.two_peers))))
  = Some peerSet.errClosed
  /\ length (snd (peerSet.Close Samples.visit_two Samples.two_peers)) = 2%nat.
Proof.
  destruct (Close_then_Register Samples.id Samples.visit_two Samples.two_peers "c")
    as (E & _ & _ & _ & Hn); [sample_visit |].
  cbv zeta in E. rewrite E. split; [reflexivity | rewrite Hn; reflexivity].
Defined.

Lemma BestPeer_is_best_witness :
  peerSet.BestPeer Samples.Td Samples.visit_two Samples.two_peers = Some "aa"%string
  /\ Samples.Td "b" <= Samples.Td "aa".
Proof.
  pose proof (BestPeer_is_best Samples.Td Samples.visit_two Samples.two_peers
                ltac:(sample_visit)) as H.
  assert (E : peerSet.BestPeer Samples.Td Samples.visit_two Samples.two_peers
              = Some "aa"%string) by reflexivity.
  rewrite E in H. destruct H as [_ Hmax].
  split; [reflexivity | apply (Hmax "b"%string "b"%string); reflexivity].
Defined.

Lemma AllPeerIDs_lists_the_ids_witness :
  NoDup (peerSet.AllPeerIDs Samples.visit_two Samples.two_peers)
  /\ Z.of_nat (length (peerSet.AllPeerIDs Samples.visit_two Samples.two_peers)) = 2.
Proof.
  destruct (AllPeerIDs_lists_the_ids Samples.visit_two Samples.two_peers)
    as (Hnd & _ & Hlen & _); [sample_visit |].
  split; [exact Hnd | rewrite Hlen; reflexivity].
Defined.

Lemma peers_are_keyed_by_id_witness :
  peerSet.Peer "aa" Samples.two_peers = Some "aa"%string
  /\ peerSet.Peer "aa"
       (fst (fst (peerSet.Unregister (Samples.id "aa") Samples.two_peers))) = None.
Proof.
  destruct (peers_are_keyed_by_id Samples.id
              [peerSetRun.OpNotify [] 7%nat; peerSetRun.OpRegister "aa";
               peerSetRun.OpRegister "b"] "aa" "aa")
    as (_ & Hgone & _); [reflexivity |].
  split; [reflexivity | exact Hgone].
Defined.

Lemma notify_reaches_subscriber_witness :
  length (snd (peerSet.notify Samples.visit_two 8%nat Samples.two_peers)) = 2%nat
  /\ peerSet.registerPeer 8%nat "c"%string
     ∈ snd (peerSet.Register Samples.id "c"
              (fst (peerSet.notify Samples.visit_two 8%nat Samples.two_peers))).
Proof.
  destruct (notify_reaches_subscriber Samples.id Samples.visit_two Samples.two_peers
              8%nat "c") as (_ & Hn & Hlater); [sample_visit |].
  split; [rewrite Hn; reflexivity | apply Hlater; reflexivity].
Defined.
